(** * AsyncConcatenatedSeekableFile: a shallow embedding and its properties

    The Python class [AsyncConcatenatedSeekableFile] presents a tuple of
    seekable files as one logical stream.  This development embeds the class
    in Rocq (explicit state passing with Python exceptions as results) and
    proves the properties the specification states about it.

    Modelling conventions:
    - Python integers are [Z]; indices into the file tuple are [nat]
      ([_file_index] is set to [0] and only ever incremented);
    - [bytes] and [bytearray] values are [list byte];
    - an exception is a value of [exn]; a method is a function from the
      object state to a [result] and the state the call leaves behind, so the
      state an exception leaves is part of the model;
    - the underlying files are the interface [IOBase]; [BytesIO] is the
      instance the test-suite uses, and [Faithful] is the contract of a
      well-behaved file, under which the properties of seeking and reading
      are proved;
    - [async]/[await], [_acall] and the re-entrant lock have no sequential
      content: one operation runs at a time, [asyncio.gather] over
      synchronous calls runs them in tuple order and raises the first
      exception.  Every file of the tuple is a distinct object. *)

From Stdlib Require Import ZArith List Lia Bool String.
From Stdlib Require Import Strings.Byte Strings.Ascii.
From Equations Require Import Equations.
Import ListNotations.

Set Implicit Arguments.
Open Scope Z_scope.

(** ** Python values *)

Definition bytes := list byte.

Inductive exn : Type :=
| ValueError (msg : string)
| UnsupportedOperation
| IndexError
| TypeError.

Inductive result (A : Type) : Type :=
| Ok (a : A)
| Raise (e : exn).
Arguments Ok {A} a.
Arguments Raise {A} e.

Definition closed_msg : string := "I/O operation on closed file."%string.
Definition whence_msg : string :=
  "whence must be io.SEEK_SET (0), io.SEEK_CUR (1) or io.SEEK_END (2)"%string.

(** [len(x)] as a Python integer. *)
Definition len {A} (l : list A) : Z := Z.of_nat (List.length l).

(** [val[:n]] for [0 <= n], and [b[i:j]]-style pieces. *)
Definition take {A} (n : Z) (l : list A) : list A := firstn (Z.to_nat n) l.
Definition drop {A} (n : Z) (l : list A) : list A := skipn (Z.to_nat n) l.

(** [bytearray(n)]: [n] zero bytes, [ValueError] for a negative count. *)
Definition bytearray (n : Z) : result bytes :=
  if n <? 0 then Raise (ValueError "negative count"%string)
  else Ok (repeat x00 (Z.to_nat n)).

(** [buffer[i:i+len(data)] = data] on a bytearray, for [0 <= i]: slice
    bounds are clipped to the buffer, so the buffer grows when the data
    reaches past its end. *)
Definition slice_assign (buffer : bytes) (i : Z) (data : bytes) : bytes :=
  take i buffer ++ data ++ drop (i + len data) buffer.

Definition SEEK_SET : Z := 0.
Definition SEEK_CUR : Z := 1.
Definition SEEK_END : Z := 2.

(** ** The underlying files *)

(** What the class calls on a file.  [seek] is only ever called with
    [io.SEEK_SET]; [flen] is the outcome of the length probe [_flen] on the
    file ([None] when no probe applies), which depends on the attributes of
    the file's type.  Queries do not change the file. *)
Class IOBase (F : Type) : Type := {
  flen : F -> result (option Z);
  fseek : F -> Z -> result Z * F;
  ftell : F -> result Z;
  fread : F -> Z -> result bytes * F;
  freadable : F -> result bool;
  fseekable : F -> result bool;
  fclose : F -> result unit * F
}.

(** [io.BytesIO]: a buffer, a cursor that may stand past the end of the
    buffer, and the closed flag. *)
Record BytesIO : Type := mkBytesIO {
  getbuffer : bytes;
  bio_pos : Z;
  bio_closed : bool
}.

Definition BytesIO_of (b : bytes) : BytesIO := mkBytesIO b 0 false.

Definition bio_guard {A} (f : BytesIO) (r : result A) : result A :=
  if bio_closed f then Raise (ValueError closed_msg) else r.

Definition bio_seek (f : BytesIO) (pos : Z) : result Z * BytesIO :=
  if bio_closed f then (Raise (ValueError closed_msg), f)
  else if pos <? 0 then (Raise (ValueError "negative seek value"%string), f)
  else (Ok pos, mkBytesIO (getbuffer f) pos false).

Definition bio_read (f : BytesIO) (size : Z) : result bytes * BytesIO :=
  if bio_closed f then (Raise (ValueError closed_msg), f)
  else
    let n := len (getbuffer f) - bio_pos f in
    let size := if (size <? 0) || (n <? size) then n else size in
    let size := if size <? 0 then 0 else size in
    (Ok (take size (drop (bio_pos f) (getbuffer f))),
     mkBytesIO (getbuffer f) (bio_pos f + size) false).

#[export] Instance BytesIO_IOBase : IOBase BytesIO := {
  flen f := bio_guard f (Ok (Some (len (getbuffer f))));
  fseek := bio_seek;
  ftell f := bio_guard f (Ok (bio_pos f));
  fread := bio_read;
  freadable f := bio_guard f (Ok true);
  fseekable f := bio_guard f (Ok true);
  fclose f := (Ok tt, mkBytesIO (getbuffer f) (bio_pos f) true)
}.

(** A file whose [seek] stops at the end of its data, reporting the position
    it reached: the kind of file [_recalc_file] makes allowance for when the
    position it asks for is not the position it gets. *)
Record ClampedIO : Type := mkClampedIO {
  cio_data : bytes;
  cio_pos : Z;
  cio_len : Z
}.

Definition cio_seek (f : ClampedIO) (pos : Z) : result Z * ClampedIO :=
  let p := Z.max 0 (Z.min pos (len (cio_data f))) in
  (Ok p, mkClampedIO (cio_data f) p (cio_len f)).

Definition cio_read (f : ClampedIO) (size : Z) : result bytes * ClampedIO :=
  let rest := drop (cio_pos f) (cio_data f) in
  let out := if size <? 0 then rest else take size rest in
  (Ok out, mkClampedIO (cio_data f) (cio_pos f + len out) (cio_len f)).

#[export] Instance ClampedIO_IOBase : IOBase ClampedIO := {
  flen f := Ok (Some (cio_len f));
  fseek := cio_seek;
  ftell f := Ok (cio_pos f);
  fread := cio_read;
  freadable _ := Ok true;
  fseekable _ := Ok true;
  fclose f := (Ok tt, f)
}.

(** ** The stream object *)

(** The attributes [__init__] sets.  [lengths] is [None] until
    [__aenter__] stores what [_flen] returned for each file, and an entry
    is [None] for a file whose length no probe could tell. *)
Record AsyncConcatenatedSeekableFile (F : Type) : Type := mkACSF {
  __inited : bool;
  _pos : Z;
  _file_index : nat;
  _file_pos : Z;
  _closed : bool;
  _name : string;
  files : list F;
  lengths : option (list (option Z))
}.

(** Methods: the object before the call to a result and the object after. *)
Definition M (F A : Type) : Type :=
  AsyncConcatenatedSeekableFile F -> result A * AsyncConcatenatedSeekableFile F.

Definition ret {F A} (a : A) : M F A := fun s => (Ok a, s).

Definition bind {F A B} (m : M F A) (k : A -> M F B) : M F B :=
  fun s => match m s with
           | (Ok a, s') => k a s'
           | (Raise e, s') => (Raise e, s')
           end.

Definition raise {F A} (e : exn) : M F A := fun s => (Raise e, s).

Definition gets {F A} (f : AsyncConcatenatedSeekableFile F -> A) : M F A :=
  fun s => (Ok (f s), s).

Definition modify {F}
  (g : AsyncConcatenatedSeekableFile F -> AsyncConcatenatedSeekableFile F)
  : M F unit :=
  fun s => (Ok tt, g s).

(** An expression that reads the object and may raise. *)
Definition eval {F A} (f : AsyncConcatenatedSeekableFile F -> result A) : M F A :=
  fun s => (f s, s).

Declare Scope py_scope.
Delimit Scope py_scope with py.
Notation "x <- m ;; k" := (bind m (fun x => k))
  (at level 61, m at next level, right associativity) : py_scope.
Notation "m ;; k" := (bind m (fun _ => k))
  (at level 61, right associativity) : py_scope.
Open Scope py_scope.

Section Stream.

Context {F : Type} `{IOBase F}.

Local Abbreviation stream := (AsyncConcatenatedSeekableFile F).

Definition set_pos (p : Z) (s : stream) : stream :=
  mkACSF (__inited s) p (_file_index s) (_file_pos s) (_closed s) (_name s)
         (files s) (lengths s).

Definition set_file_index (i : nat) (s : stream) : stream :=
  mkACSF (__inited s) (_pos s) i (_file_pos s) (_closed s) (_name s)
         (files s) (lengths s).

Definition set_file_pos (p : Z) (s : stream) : stream :=
  mkACSF (__inited s) (_pos s) (_file_index s) p (_closed s) (_name s)
         (files s) (lengths s).

Definition set_closed (c : bool) (s : stream) : stream :=
  mkACSF (__inited s) (_pos s) (_file_index s) (_file_pos s) c (_name s)
         (files s) (lengths s).

Definition set_inited (b : bool) (s : stream) : stream :=
  mkACSF b (_pos s) (_file_index s) (_file_pos s) (_closed s) (_name s)
         (files s) (lengths s).

Definition set_files (fs : list F) (s : stream) : stream :=
  mkACSF (__inited s) (_pos s) (_file_index s) (_file_pos s) (_closed s)
         (_name s) fs (lengths s).

Definition set_lengths (ls : option (list (option Z))) (s : stream) : stream :=
  mkACSF (__inited s) (_pos s) (_file_index s) (_file_pos s) (_closed s)
         (_name s) (files s) ls.

(** [l[i] = x] inside the tuple of files: the file object at [i] after a
    call on it. *)
Fixpoint store {A} (i : nat) (x : A) (l : list A) : list A :=
  match l, i with
  | [], _ => []
  | _ :: l', O => x :: l'
  | y :: l', S i' => y :: store i' x l'
  end.

(** [self.files[i].method(...)]: [IndexError] when the tuple has no such
    entry, otherwise the call's result, with the file left as the call
    leaves it. *)
Definition call_file {A} (i : nat) (m : F -> result A * F) : M F A :=
  fun s => match nth_error (files s) i with
           | None => (Raise IndexError, s)
           | Some f => let (r, f') := m f in (r, set_files (store i f' (files s)) s)
           end.

(** A call that only asks the file something. *)
Definition query {A} (q : F -> result A) : F -> result A * F :=
  fun f => (q f, f).

(** [asyncio.gather] over one call per file: every file is called, in
    order; the results come back in order, or the first exception does.
    This is the course of synchronous calls; with awaitable methods the
    calls that are still pending when the first exception is raised are
    not modelled. *)
Fixpoint gather {A} (m : F -> result A * F) (fs : list F)
  : result (list A) * list F :=
  match fs with
  | [] => (Ok [], [])
  | f :: fs' =>
      let (r, f') := m f in
      let (rs, fs'') := gather m fs' in
      (match r, rs with
       | Raise e, _ => Raise e
       | Ok _, Raise e => Raise e
       | Ok a, Ok l => Ok (a :: l)
       end, f' :: fs'')
  end.

Definition _call_on_all_files {A} (m : F -> result A * F) : M F (list A) :=
  fun s => let (r, fs) := gather m (files s) in (r, set_files fs s).

(** [all(...)] over booleans. *)
Definition all (l : list bool) : bool := forallb (fun b => b) l.

(** [sum(...)] over the length table: a [None] entry cannot be added. *)
Fixpoint sum (l : list (option Z)) (acc : Z) : result Z :=
  match l with
  | [] => Ok acc
  | Some z :: l' => sum l' (acc + z)
  | None :: _ => Raise TypeError
  end.

(** [self.lengths[i]] used as a number. *)
Definition length_at (i : nat) (s : stream) : result Z :=
  match lengths s with
  | None => Raise TypeError
  | Some ls => match nth_error ls i with
               | None => Raise IndexError
               | Some None => Raise TypeError
               | Some (Some l) => Ok l
               end
  end.

Definition __init__ (fs : list F) (name : string) : stream :=
  mkACSF false 0 0 0 true name fs None.

Definition __len__ : M F Z :=
  eval (fun s => match lengths s with
                 | None => Raise TypeError
                 | Some ls => sum ls 0
                 end).

(** The check loop of [__aenter__]: the first file with an unknown length
    raises ([ValueError]; the message, which names the file and its index,
    is shortened to its fixed part). *)
Definition has_unknown (ls : list (option Z)) : bool :=
  existsb (fun l => match l with None => true | Some _ => false end) ls.

Definition __aenter__ : M F unit :=
  i <- gets (@__inited F) ;;
  if i then ret tt
  else
    ls <- _call_on_all_files (query flen) ;;
    modify (set_lengths (Some ls)) ;;
    (if has_unknown ls then raise (ValueError "has unknown length."%string)
     else ret tt) ;;
    modify (set_closed false) ;;
    modify (set_inited true).

Definition create (fs : list F) (name : string) : result unit * stream :=
  __aenter__ (__init__ fs name).

Definition _file_length : M F Z :=
  eval (fun s => length_at (_file_index s) s).

Definition inspect {A} (a : A) : {b : A | a = b} := exist _ a eq_refl.

(** The [while] loop of [_recalc_file]: [pos] is the local variable, the
    index lives in the object.  It ends because each turn moves the index
    one step closer to the number of files. *)
Equations? find_file (s : stream) (pos : Z) : result Z * stream
  by wf (List.length (files s) - _file_index s)%nat lt :=
find_file s pos with inspect (length_at (_file_index s) s) := {
  | exist _ (Raise e) _ => (Raise e, s)
  | exist _ (Ok l) _
      with inspect ((l <=? pos)
                    && (S (_file_index s) <? List.length (files s))%nat) := {
      | exist _ true Hc =>
          find_file (set_file_index (S (_file_index s)) s) (pos - l)
      | exist _ false _ => (Ok pos, s) } }.
Proof.
  simpl. apply andb_prop in Hc. destruct Hc as [_ Hc].
  apply Nat.ltb_lt in Hc. lia.
Qed.

Definition _recalc_file : M F unit :=
  pos <- gets (@_pos F) ;;
  modify (set_file_index 0) ;;
  modify (set_file_pos 0) ;;
  pos <- (fun s => find_file s pos) ;;
  idx <- gets (@_file_index F) ;;
  fpos <- call_file idx (fun f => fseek f pos) ;;
  (if negb (fpos =? pos)
   then modify (fun s => set_pos (_pos s - (pos - fpos)) s)
   else ret tt) ;;
  modify (set_file_pos fpos).

Definition close : M F unit :=
  _call_on_all_files fclose ;;
  modify (set_closed true).

Definition readable : M F bool :=
  c <- gets (@_closed F) ;;
  if c then ret false
  else rs <- _call_on_all_files (query freadable) ;; ret (all rs).

Definition seekable : M F bool :=
  rs <- _call_on_all_files (query fseekable) ;; ret (all rs).

Definition tell : M F Z := gets (@_pos F).

(** The properties [closed] and [name], and [__aexit__]. *)
Definition closed : M F bool := gets (@_closed F).

Definition name : M F string := gets (@_name F).

Definition __aexit__ : M F unit := close.

Definition read1 (amount : Z) : M F bytes :=
  c <- gets (@_closed F) ;;
  if c then raise (ValueError closed_msg)
  else
    r <- readable ;;
    if negb r then raise UnsupportedOperation
    else
      fpos <- gets (@_file_pos F) ;;
      idx <- gets (@_file_index F) ;;
      val <- call_file idx (fun f => fread f amount) ;;
      file_length <- _file_length ;;
      let max_len := Z.max (file_length - fpos) 0 in
      let val := if max_len <? len val then take max_len val else val in
      idx <- gets (@_file_index F) ;;
      t <- call_file idx (query ftell) ;;
      modify (set_file_pos t) ;;
      modify (fun s => set_pos (_pos s + len val) s) ;;
      _recalc_file ;;
      ret val.

Definition seek (offset whence : Z) : M F Z :=
  c <- gets (@_closed F) ;;
  if c then raise (ValueError closed_msg)
  else
    sk <- seekable ;;
    if negb sk then raise UnsupportedOperation
    else
      (if whence =? SEEK_SET then modify (set_pos 0)
       else if whence =? SEEK_CUR then ret tt
       else if whence =? SEEK_END then (n <- __len__ ;; modify (set_pos n))
       else raise (ValueError whence_msg)) ;;
      modify (fun s => set_pos (_pos s + offset) s) ;;
      _recalc_file ;;
      gets (@_pos F).

(** The loop of [readinto].  [buffer] is the caller's bytearray, so it is
    returned next to the result whether or not the call raises.  The loop
    ends because a turn that does not [break] adds at least one byte to
    [data_len]. *)
Equations? readinto_loop (buf_len : Z) (buffer : bytes) (data_len : Z)
  (s : stream) : (result Z * bytes) * stream
  by wf (Z.to_nat (buf_len - data_len)) lt :=
readinto_loop buf_len buffer data_len s with inspect (data_len <? buf_len) := {
  | exist _ false _ => (Ok data_len, buffer, s)
  | exist _ true Hlt with inspect (read1 (buf_len - data_len) s) := {
      | exist _ (Raise e, s') _ => (Raise e, buffer, s')
      | exist _ (Ok [], s') _ => (Ok data_len, buffer, s')
      | exist _ (Ok (b :: data), s') _ =>
          readinto_loop buf_len
            (slice_assign buffer data_len (b :: data))
            (data_len + len (b :: data)) s' } }.
Proof.
  apply Z.ltb_lt in Hlt. unfold len. simpl List.length. lia.
Qed.

Definition readinto (buffer : bytes) (s : stream)
  : (result Z * bytes) * stream :=
  readinto_loop (len buffer) buffer 0 s.

Definition read (amount : Z) : M F bytes :=
  whole <- (if amount <? 0 then ret true
            else n <- __len__ ;; p <- gets (@_pos F) ;; ret (n - p <? amount)) ;;
  amount <- (if whole : bool
             then n <- __len__ ;; p <- gets (@_pos F) ;; ret (n - p)
             else ret amount) ;;
  ba <- eval (fun _ => bytearray amount) ;;
  fun s => match readinto ba s with
           | (Ok _, ba', s') => (Ok ba', s')
           | (Raise e, _, s') => (Raise e, s')
           end.

End Stream.

(** ** The test-suite's stream *)

Definition b_test : bytes := list_byte_of_string "test".
Definition b_kurwa : bytes := list_byte_of_string " KURWA" ++ [x0a].
Definition b_kek : bytes := list_byte_of_string "kek".

Definition in_f : list BytesIO :=
  [BytesIO_of b_test; BytesIO_of b_kurwa; BytesIO_of b_kek].

Definition acsf : AsyncConcatenatedSeekableFile BytesIO :=
  snd (create in_f EmptyString).

Definition run {F A} (m : M F A) (s : AsyncConcatenatedSeekableFile F) :=
  fst (m s).
Definition exec {F A} (m : M F A) (s : AsyncConcatenatedSeekableFile F) :=
  snd (m s).

(** The second file of the test-suite from its third byte on. *)
Definition b_kurwa_tail : bytes := list_byte_of_string "URWA" ++ [x0a].

(** A closed stream: the test-suite's stream after [close()]. *)
Definition acsf_closed : AsyncConcatenatedSeekableFile BytesIO :=
  exec close acsf.

(** A stream that was constructed and never entered. *)
Definition acsf_fresh : AsyncConcatenatedSeekableFile BytesIO :=
  __init__ in_f EmptyString.


(** A stream whose only file holds less than the length recorded for it,
    with the cursor set inside the missing part. *)
Definition acsf_short : AsyncConcatenatedSeekableFile ClampedIO :=
  mkACSF true 3 0 0 false EmptyString [mkClampedIO (list_byte_of_string "ab") 0 4]
         (Some [Some 4]).

(** ** Operations in sequence *)

Inductive op : Type :=
| Seek (offset whence : Z)
| Read1 (amount : Z).

Section Ops.

Context {F : Type} `{IOBase F}.

(** The object after one call, whether it returned or raised. *)
Definition step (o : op) (s : AsyncConcatenatedSeekableFile F)
  : AsyncConcatenatedSeekableFile F :=
  match o with
  | Seek offset whence => exec (seek offset whence) s
  | Read1 amount => exec (read1 amount) s
  end.

Definition steps (os : list op) (s : AsyncConcatenatedSeekableFile F)
  : AsyncConcatenatedSeekableFile F :=
  fold_left (fun s o => step o s) os s.

(** A method that leaves [self.lengths] alone, returning or raising. *)
Definition keeps_lengths {A} (m : M F A) : Prop :=
  forall s, lengths (snd (m s)) = lengths s.

(** [raises r]: the call did not return. *)
Definition raises {A} (r : result A) : Prop :=
  match r with Raise _ => True | Ok _ => False end.

End Ops.

(** The sum of a table of declared lengths. *)
Definition total_length (ls : list Z) : Z := fold_right Z.add 0 ls.

(** ** Files that keep the contract of [io] *)

(** The position the [while] loop of [_recalc_file] stops at, read off the
    table of lengths [ls]: the index (counted from [i]) and the offset left
    over. *)
Fixpoint locate (ls : list Z) (i : nat) (pos : Z) : nat * Z :=
  match ls with
  | [] => (i, pos)
  | l :: ls' =>
      match ls' with
      | [] => (i, pos)
      | _ :: _ => if l <=? pos then locate ls' (S i) (pos - l) else (i, pos)
      end
  end.

(** What a seekable, readable binary file promises while it is open.  It
    holds the bytes [fdata] and a cursor [fcursor]; [seek] to a position
    that is not negative moves the cursor there and says so; [read] returns
    bytes from the cursor on and moves the cursor past them, no more than
    asked for and at least one when some are left and some are asked for (a
    raw file may return fewer than asked); [tell] is the cursor; none of
    them changes the bytes. *)
Class Faithful (F : Type) `{IOBase F} : Type := {
  fdata : F -> bytes;
  fcursor : F -> Z;
  is_open : F -> Prop;
  seek_spec : forall (f : F) (p : Z),
    is_open f -> 0 <= p ->
    exists f', fseek f p = (Ok p, f')
               /\ fdata f' = fdata f /\ fcursor f' = p /\ is_open f';
  read_spec : forall (f : F) (n : Z),
    is_open f -> 0 <= fcursor f ->
    exists size f',
      fread f n = (Ok (take size (drop (fcursor f) (fdata f))), f')
      /\ fdata f' = fdata f /\ fcursor f' = fcursor f + size /\ is_open f'
      /\ 0 <= size <= Z.max (len (fdata f) - fcursor f) 0
      /\ (0 <= n -> size <= n)
      /\ (fcursor f < len (fdata f) -> n <> 0 -> 0 < size);
  tell_spec : forall f : F, is_open f -> ftell f = Ok (fcursor f);
  readable_spec : forall f : F, is_open f -> freadable f = Ok true;
  seekable_spec : forall f : F, is_open f -> fseekable f = Ok true
}.
Arguments Faithful F {_}.
Arguments seek_spec {F _ _} f p _ _.
Arguments read_spec {F _ _} f n _ _.
Arguments tell_spec {F _ _} f _.
Arguments readable_spec {F _ _} f _.
Arguments seekable_spec {F _ _} f _.

(** [io.BytesIO] keeps the contract. *)
#[export, refine] Instance BytesIO_Faithful : Faithful BytesIO := {
  fdata := getbuffer;
  fcursor := bio_pos;
  is_open f := bio_closed f = false
}.
Proof.
  - intros f p Hc Hp. cbn [fseek BytesIO_IOBase]. unfold bio_seek. rewrite Hc.
    replace (p <? 0) with false by lia. eexists. repeat split.
  - intros f n Hc Hp. cbn [fread BytesIO_IOBase]. unfold bio_read. rewrite Hc.
    eexists. eexists. split; [reflexivity|]. cbn [getbuffer bio_pos bio_closed].
    repeat split;
      try (intros; destruct (n <? 0) eqn:E1;
           destruct (len (getbuffer f) - bio_pos f <? n) eqn:E2; cbn [orb];
           match goal with
           | |- context [?x <? 0] => destruct (x <? 0) eqn:E3
           end; lia).
  - intros f Hc. cbn. unfold bio_guard. now rewrite Hc.
  - intros f Hc. cbn. unfold bio_guard. now rewrite Hc.
  - intros f Hc. cbn. unfold bio_guard. now rewrite Hc.
Defined.

Section FaithfulStreams.

Context {F : Type} `{Faithful F}.

(** An open stream over at least one file, every file open and holding
    exactly as many bytes as the length table records for it. *)
Record opened (s : AsyncConcatenatedSeekableFile F) : Prop := {
  opened_flag : _closed s = false;
  opened_some : files s <> [];
  opened_files : Forall is_open (files s);
  opened_lengths :
    lengths s = Some (map (fun f => Some (len (fdata f))) (files s))
}.

(** The declared lengths and the bytes of the logical stream. *)
Definition table (s : AsyncConcatenatedSeekableFile F) : list Z :=
  map (fun f => len (fdata f)) (files s).

Definition content (s : AsyncConcatenatedSeekableFile F) : bytes :=
  List.concat (map fdata (files s)).

(** What every [seek] and [read1] re-establishes: the files hold the bytes
    [bufs], the stream's cursor is [p], the active index and offset are
    where the walk over the table puts [p], and the active file's own cursor
    agrees with the cached offset. *)
Record synced (bufs : list bytes) (p : Z)
  (s : AsyncConcatenatedSeekableFile F) : Prop := {
  synced_opened : opened s;
  synced_bufs : map fdata (files s) = bufs;
  synced_pos : _pos s = p;
  synced_at : locate (map len bufs) 0 p = (_file_index s, _file_pos s);
  synced_cursor :
    exists f, nth_error (files s) (_file_index s) = Some f
              /\ fcursor f = _file_pos s
}.

End FaithfulStreams.

(** Calls in sequence, collecting what each returns. *)
Fixpoint each {F A B} (f : A -> M F B) (l : list A) : M F (list B) :=
  match l with
  | [] => ret []
  | a :: l' => b <- f a ;; bs <- each f l' ;; ret (b :: bs)
  end.

(** A stream with an empty file in the middle. *)
Definition acsf_gap : AsyncConcatenatedSeekableFile BytesIO :=
  snd (create [BytesIO_of b_test; BytesIO_of []; BytesIO_of b_kek] EmptyString).

(** ** The length probe [_flen] *)

(** [except OSError]: of the exceptions modelled, [io.UnsupportedOperation]
    is the one that is an [OSError] (it derives from [OSError] and
    [ValueError]). *)
Definition is_OSError (e : exn) : bool :=
  match e with
  | UnsupportedOperation => true
  | _ => false
  end.

(** ['b' in mode]. *)
Fixpoint has_b (mode : string) : bool :=
  match mode with
  | EmptyString => false
  | String c mode' => Ascii.eqb c "b"%char || has_b mode'
  end.

Section LengthProbe.

Context {F : Type}.

(** The attributes [_flen] looks for with [hasattr], each present
    ([Some], with what calling it does) or absent. *)
Record attrs : Type := mkAttrs {
  attr___len__ : option (F -> result Z);
  attr_len : option (F -> result Z * F);
  attr_getbuffer : option (F -> result bytes * F);
  attr_fileno : option (F -> result Z * F);
  attr_mode : option (F -> string);
  attr_seek : option (F -> Z -> Z -> result Z * F);
  attr_tell : option (F -> result Z * F)
}.

(** [os.fstat(fileno).st_size]. *)
Variable st_size : Z -> result Z.

(** A [try] body's call under [except OSError: pass], after which the
    function falls through to its last line, [return None]. *)
Definition or_pass {A} (r : result A * F)
  (k : A -> F -> result (option Z) * F) : result (option Z) * F :=
  match r with
  | (Ok a, f) => k a f
  | (Raise e, f) => if is_OSError e then (Ok None, f) else (Raise e, f)
  end.

(** A call whose exception is not caught. *)
Definition returning {A} (r : result A * F) (g : A -> option Z)
  : result (option Z) * F :=
  match r with
  | (Ok a, f) => (Ok (g a), f)
  | (Raise e, f) => (Raise e, f)
  end.

Definition _flen (a : attrs) (f : F) : result (option Z) * F :=
  match attr___len__ a with
  | Some __len__ => returning (__len__ f, f) Some
  | None =>
  match attr_len a with
  | Some len_ => returning (len_ f) Some
  | None =>
  match attr_getbuffer a with
  | Some getbuffer_ => returning (getbuffer_ f) (fun b => Some (len b))
  | None =>
  match attr_fileno a with
  | Some fileno_ =>
      or_pass (fileno_ f)
        (fun fileno f1 =>
           match attr_mode a with
           | Some mode =>
               if negb (has_b (mode f1)) then (Ok None, f1)
               else returning (st_size fileno, f1) Some
           | None => returning (st_size fileno, f1) Some
           end)
  | None =>
  match attr_seek a, attr_tell a with
  | Some seek_, Some tell_ =>
      or_pass (tell_ f)
        (fun offset f1 =>
           or_pass (seek_ f1 0 SEEK_END)
             (fun length f2 =>
                or_pass (seek_ f2 offset SEEK_SET)
                  (fun _ f3 => (Ok (Some length), f3))))
  | _, _ => (Ok None, f)
  end end end end end.

End LengthProbe.

(** [io.BytesIO.seek(pos, whence)]. *)
Definition bio_seek_whence (f : BytesIO) (pos whence : Z)
  : result Z * BytesIO :=
  if bio_closed f then (Raise (ValueError closed_msg), f)
  else if (pos <? 0) && (whence =? 0)
  then (Raise (ValueError "negative seek value"%string), f)
  else
    let moved :=
      if whence =? 1 then Ok (pos + bio_pos f)
      else if whence =? 2 then Ok (pos + len (getbuffer f))
      else if negb (whence =? 0) then Raise (ValueError "invalid whence"%string)
      else Ok pos in
    match moved with
    | Raise e => (Raise e, f)
    | Ok pos =>
        let pos := if pos <? 0 then 0 else pos in
        (Ok pos, mkBytesIO (getbuffer f) pos false)
    end.

(** What [hasattr] finds on an [io.BytesIO]: no [__len__], no [len], no
    [mode]; [getbuffer]; a [fileno] that raises [io.UnsupportedOperation];
    [seek] and [tell]. *)
Definition BytesIO_attrs : attrs (F := BytesIO) :=
  mkAttrs None None
    (Some (fun f => (bio_guard f (Ok (getbuffer f)), f)))
    (Some (fun f => (Raise UnsupportedOperation, f)))
    None
    (Some bio_seek_whence)
    (Some (fun f => (bio_guard f (Ok (bio_pos f)), f))).

(** ** A file for the refusals *)

(** A file that says what it is told to about itself: the length [_flen]
    finds for it, whether it is readable and seekable, and whether its
    [read] and [close] raise. *)
Record StubIO : Type := mkStubIO {
  stub_len : option Z;
  stub_readable : bool;
  stub_seekable : bool;
  stub_broken : bool
}.

Definition stub_call {A} (f : StubIO) (a : A) : result A * StubIO :=
  if stub_broken f then (Raise (ValueError "broken"%string), f) else (Ok a, f).

#[export] Instance StubIO_IOBase : IOBase StubIO := {
  flen f := Ok (stub_len f);
  fseek f pos := (Ok pos, f);
  ftell _ := Ok 0;
  fread f _ := stub_call f [];
  freadable f := Ok (stub_readable f);
  fseekable f := Ok (stub_seekable f);
  fclose f := stub_call f tt
}.

Definition stub (l : option Z) (r k b : bool) : StubIO := mkStubIO l r k b.

(** An open stream over one file with the given capabilities. *)
Definition stub_stream (f : StubIO) : AsyncConcatenatedSeekableFile StubIO :=
  mkACSF true 0 0 0 false EmptyString [f] (Some [Some 0]).

(** ** What a call leaves alone *)

Section Frames.

Context {F : Type} `{IOBase F}.

(** The attributes no [seek] and no [read1] writes: the closed flag, the
    initialization flag, the name, the length table, and how many files
    there are. *)
Definition fixed (s : AsyncConcatenatedSeekableFile F)
  : bool * bool * string * option (list (option Z)) * nat :=
  (_closed s, __inited s, _name s, lengths s, List.length (files s)).

Definition keeps_fixed {A} (m : M F A) : Prop :=
  forall s, fixed (snd (m s)) = fixed s.

End Frames.

Section Mapping.

Context {F : Type} `{Faithful F}.

(** The position mapping: the active index is a file of the stream, the
    logical cursor is the sum of the lengths of the files before it plus
    the active offset, the offset is not negative and falls inside the
    active file unless that is the last one, and the active file's own
    cursor is the active offset. *)
Record mapped (s : AsyncConcatenatedSeekableFile F) : Prop := {
  mapped_index : (_file_index s < List.length (files s))%nat;
  mapped_pos :
    _pos s = total_length (firstn (_file_index s) (table s)) + _file_pos s;
  mapped_offset : 0 <= _file_pos s;
  mapped_inside :
    _file_pos s < nth (_file_index s) (table s) 0
    \/ S (_file_index s) = List.length (files s);
  mapped_cursor :
    exists f, nth_error (files s) (_file_index s) = Some f
              /\ fcursor f = _file_pos s
}.

(** The origin [seek] counts from, for the three values of [whence]. *)
Definition origin (whence : Z) (s : AsyncConcatenatedSeekableFile F) : Z :=
  if whence =? SEEK_SET then 0
  else if whence =? SEEK_CUR then _pos s
  else total_length (table s).

End Mapping.

(** * Properties *)

(** ** Plumbing *)

Section Plumbing.

Context {F : Type} `{IOBase F}.

Local Abbreviation stream := (AsyncConcatenatedSeekableFile F).

Lemma gather_query {A} (q : F -> result A) (fs : list F) :
  snd (gather (query q) fs) = fs.
Proof.
  induction fs as [|f fs IH]; simpl; [reflexivity|].
  destruct (gather (query q) fs) as [rs fs']; simpl in *. now subst.
Qed.

Lemma set_files_same (s : stream) : set_files (files s) s = s.
Proof. now destruct s. Qed.

Lemma call_all_query {A} (q : F -> result A) (s : stream) :
  _call_on_all_files (query q) s = (fst (gather (query q) (files s)), s).
Proof.
  unfold _call_on_all_files.
  pose proof (gather_query q (files s)) as E.
  destruct (gather (query q) (files s)) as [r fs]; simpl in *; subst.
  now rewrite set_files_same.
Qed.

Lemma readable_state (s : stream) : snd (readable s) = s.
Proof.
  unfold readable, bind, gets, ret. destruct (_closed s); simpl; [reflexivity|].
  rewrite call_all_query. now destruct (fst (gather (query freadable) (files s))).
Qed.

Lemma seekable_state (s : stream) : snd (seekable s) = s.
Proof.
  unfold seekable, bind, ret. rewrite call_all_query.
  now destruct (fst (gather (query fseekable) (files s))).
Qed.

Lemma gather_query_Ok {A} (q : F -> result A) (fs : list F) (l : list A) :
  fst (gather (query q) fs) = Ok l -> Forall2 (fun f a => q f = Ok a) fs l.
Proof.
  revert l. induction fs as [|f fs IH]; simpl; intros l E.
  - inversion E. constructor.
  - destruct (gather (query q) fs) as [rs fs']. unfold query in E; simpl in *.
    destruct (q f) as [a|e] eqn:Ea; simpl in E; [|discriminate E].
    destruct rs as [l'|e]; [|discriminate E].
    inversion E; subst. constructor; auto.
Qed.

End Plumbing.

(** ** Errors *)

Section Errors.

Context {F : Type} `{IOBase F}.

Local Abbreviation stream := (AsyncConcatenatedSeekableFile F).

(** C9.  On an open stream whose files are all seekable, [seek] with a
    [whence] that is none of [SEEK_SET], [SEEK_CUR], [SEEK_END] raises
    [ValueError], and the object (cursor, active index, active offset,
    files) is exactly as before the call. *)
Theorem seek_invalid_whence (s : stream) (offset whence : Z) :
  _closed s = false ->
  run seekable s = Ok true ->
  whence <> SEEK_SET -> whence <> SEEK_CUR -> whence <> SEEK_END ->
  seek offset whence s = (Raise (ValueError whence_msg), s).
Proof.
  intros Hc Hs H0 H1 H2. unfold seek, bind at 1, gets. rewrite Hc.
  unfold bind at 1. unfold run in Hs.
  pose proof (seekable_state s) as Es.
  destruct (seekable s) as [r s1]; simpl in *; subst. simpl.
  unfold bind at 1.
  apply Z.eqb_neq in H0, H1, H2. now rewrite H0, H1, H2.
Qed.

(** C10.  With the logical cursor past the total length, [read] (whatever
    amount is asked for) computes a negative amount and raises at
    [bytearray(amount)]; it does not return empty bytes. *)
Theorem read_past_end (s : stream) (amount n : Z) :
  run __len__ s = Ok n ->
  n < _pos s ->
  read amount s = (Raise (ValueError "negative count"), s).
Proof.
  intros Hn Hp. unfold run, __len__, eval in Hn; simpl in Hn.
  unfold read, bind, __len__, eval, gets, ret; simpl.
  destruct (amount <? 0) eqn:Ea; simpl; rewrite Hn; simpl.
  - unfold bytearray. now replace (n - _pos s <? 0) with true by lia.
  - replace (n - _pos s <? amount) with true by lia.
    rewrite Hn. unfold bytearray. now replace (n - _pos s <? 0) with true by lia.
Qed.

Lemma all_Forall2 {A} (P : A -> bool -> Prop) (fs : list A) (l : list bool) :
  Forall2 P fs l -> all l = true -> Forall (fun f => P f true) fs.
Proof.
  induction 1 as [|f b fs l Hb _ IH]; intros Ha; constructor; simpl in Ha;
    apply andb_prop in Ha; destruct Ha as [-> Ha]; auto.
Qed.

(** [readable] returns [True] only on a stream that is not closed and
    whose files all say they are readable. *)
Lemma readable_only_if (s : stream) :
  run readable s = Ok true ->
  _closed s = false /\ Forall (fun f => freadable f = Ok true) (files s).
Proof.
  unfold run, readable, bind, gets. destruct (_closed s); [discriminate|].
  rewrite call_all_query.
  destruct (fst (gather (query freadable) (files s))) as [l|e] eqn:Eg;
    [|discriminate].
  unfold ret; cbn [fst]. intros E. injection E as Ea. split; [reflexivity|].
  apply gather_query_Ok in Eg. exact (all_Forall2 Eg Ea).
Qed.

(** [seekable] returns [True] only on a stream whose files all say they
    are seekable; the closed flag plays no part. *)
Lemma seekable_only_if (s : stream) :
  run seekable s = Ok true ->
  Forall (fun f => fseekable f = Ok true) (files s).
Proof.
  unfold run, seekable, bind. rewrite call_all_query.
  destruct (fst (gather (query fseekable) (files s))) as [l|e] eqn:Eg;
    [|discriminate].
  unfold ret; cbn [fst]. intros E. injection E as Ea.
  apply gather_query_Ok in Eg. exact (all_Forall2 Eg Ea).
Qed.

(** C6, as amended.  After [close()], [seek] and [read1] raise the
    closed-file [ValueError], and [readable] returns [False] instead of
    raising. *)
Theorem closed_stream_operations (s s' : stream) (offset whence amount : Z) :
  close s = (Ok tt, s') ->
  run (seek offset whence) s' = Raise (ValueError closed_msg)
  /\ run (read1 amount) s' = Raise (ValueError closed_msg)
  /\ run readable s' = Ok false.
Proof.
  intros Hc.
  assert (E : _closed s' = true).
  { unfold close, bind, modify in Hc.
    destruct (_call_on_all_files fclose s) as [[u|e] s1]; now inversion Hc. }
  unfold run, seek, read1, readable, bind, gets, raise, ret. now rewrite E.
Qed.

End Errors.

Lemma seek_invalid_whence_witness :
  seek 0 3 acsf = (Raise (ValueError whence_msg), acsf).
Proof. apply seek_invalid_whence; (reflexivity || discriminate). Defined.

Lemma read_past_end_witness :
  let s := exec (seek 16 SEEK_SET) acsf in
  _pos s = 16 /\ read (-1) s = (Raise (ValueError "negative count"), s).
Proof.
  split; [reflexivity|].
  apply (@read_past_end _ _ (exec (seek 16 SEEK_SET) acsf) (-1) 14);
    [reflexivity | vm_compute; reflexivity].
Defined.

Lemma closed_stream_operations_witness :
  run (seek 0 SEEK_SET) acsf_closed = Raise (ValueError closed_msg)
  /\ run (read1 1) acsf_closed = Raise (ValueError closed_msg)
  /\ run readable acsf_closed = Ok false.
Proof.
  apply (@closed_stream_operations _ _ acsf acsf_closed 0 SEEK_SET 1).
  reflexivity.
Defined.

(** C6, as stated, fails: on the test stream, closed by a [close()] that
    returned, not every operation of the public surface raises ([readable]
    returns [False], [tell] returns the cursor). *)
Lemma closed_stream_not_all_raise :
  close acsf = (Ok tt, acsf_closed)
  /\ run readable acsf_closed = Ok false
  /\ run tell acsf_closed = Ok 0
  /\ ~ (raises (run (seek 0 SEEK_SET) acsf_closed)
        /\ raises (run tell acsf_closed)
        /\ raises (run (read1 1) acsf_closed)
        /\ raises (run readable acsf_closed)
        /\ raises (run seekable acsf_closed)).
Proof.
  repeat split. intros (_ & _ & _ & Hr & _). exact Hr.
Qed.

(** C7.  [seekable] does not look at the closed flag: on a stream that was
    never opened (its [closed] is [True]) it returns [True], and after
    [close()] over [BytesIO] files it raises what the closed files raise
    rather than return [False]; [readable] returns [False] on both. *)
Theorem seekable_ignores_closed :
  _closed acsf_fresh = true
  /\ run seekable acsf_fresh = Ok true
  /\ run readable acsf_fresh = Ok false
  /\ _closed acsf_closed = true
  /\ run seekable acsf_closed = Raise (ValueError closed_msg)
  /\ run readable acsf_closed = Ok false.
Proof. repeat split; reflexivity. Qed.

(** ** Resync and single reads, for any kind of file *)

Section AnyFile.

Context {F : Type} `{IOBase F}.

Local Abbreviation stream := (AsyncConcatenatedSeekableFile F).

Lemma bind_Ok_inv {A B} (m : M F A) (k : A -> M F B) s b s' :
  bind m k s = (Ok b, s') ->
  exists a s1, m s = (Ok a, s1) /\ k a s1 = (Ok b, s').
Proof.
  unfold bind. destruct (m s) as [[a|e] s1]; intros E; [eauto | discriminate].
Qed.

(** One turn of the loop, as an equation. *)
Lemma find_file_step (s : stream) (pos : Z) :
  find_file s pos =
  match length_at (_file_index s) s with
  | Raise e => (Raise e, s)
  | Ok l =>
      if (l <=? pos) && (S (_file_index s) <? List.length (files s))%nat
      then find_file (set_file_index (S (_file_index s)) s) (pos - l)
      else (Ok pos, s)
  end.
Proof.
  funelim (find_file s pos);
    try match goal with E : length_at _ _ = _ |- _ => rewrite E end;
    try match goal with E : (_ && _) = _ |- _ => rewrite E end;
    reflexivity.
Qed.

(** The loop only ever writes the index. *)
Lemma find_file_frame (s : stream) (pos : Z) :
  snd (find_file s pos) = set_file_index (_file_index (snd (find_file s pos))) s.
Proof.
  remember (List.length (files s) - _file_index s)%nat as n eqn:En.
  revert s pos En. induction n as [n IH] using lt_wf_ind. intros s pos En.
  rewrite find_file_step.
  destruct (length_at (_file_index s) s) as [l|e]; [|now destruct s].
  destruct ((l <=? pos) && (S (_file_index s) <? List.length (files s))%nat)
    eqn:Ec; [|now destruct s].
  apply andb_prop in Ec. destruct Ec as [_ Ec]. apply Nat.ltb_lt in Ec.
  rewrite (IH (List.length (files s) - S (_file_index s))%nat) at 1;
    [reflexivity | lia | reflexivity].
Qed.

Lemma find_file_pos (s : stream) (pos : Z) :
  _pos (snd (find_file s pos)) = _pos s.
Proof. now rewrite find_file_frame. Qed.

Lemma find_file_lengths (s : stream) (pos : Z) :
  lengths (snd (find_file s pos)) = lengths s.
Proof. now rewrite find_file_frame. Qed.

Lemma find_file_files (s : stream) (pos : Z) :
  files (snd (find_file s pos)) = files s.
Proof. now rewrite find_file_frame. Qed.

(** C5.  In [_recalc_file], when the file the walk stops at answers the
    seek to the candidate offset [cand] with another position [fpos], the
    logical cursor goes down by exactly [cand - fpos] and the cached
    active offset becomes [fpos]. *)
Theorem recalc_short_source (s s1 : stream) (cand fpos : Z) (f f' : F) :
  find_file (set_file_pos 0 (set_file_index 0 s)) (_pos s) = (Ok cand, s1) ->
  nth_error (files s1) (_file_index s1) = Some f ->
  fseek f cand = (Ok fpos, f') ->
  fpos <> cand ->
  exists s', _recalc_file s = (Ok tt, s')
             /\ _pos s' = _pos s - (cand - fpos)
             /\ _file_pos s' = fpos
             /\ _file_index s' = _file_index s1.
Proof.
  intros Hw Hf Hk Hne.
  pose proof (find_file_pos (set_file_pos 0 (set_file_index 0 s)) (_pos s)) as Hp.
  rewrite Hw in Hp; simpl in Hp.
  unfold _recalc_file, bind, gets, modify, call_file; simpl.
  rewrite Hw, Hf, Hk.
  apply Z.eqb_neq in Hne. rewrite Hne; simpl.
  eexists; split; [reflexivity|]. simpl. rewrite Hp. auto.
Qed.


(** One turn of the loop of [readinto], as an equation. *)
Lemma readinto_loop_step (buf_len : Z) (buffer : bytes) (data_len : Z)
  (s : stream) :
  readinto_loop buf_len buffer data_len s =
  if data_len <? buf_len
  then match read1 (buf_len - data_len) s with
       | (Raise e, s') => (Raise e, buffer, s')
       | (Ok [], s') => (Ok data_len, buffer, s')
       | (Ok (b :: data), s') =>
           readinto_loop buf_len
             (slice_assign buffer data_len (b :: data))
             (data_len + len (b :: data)) s'
       end
  else (Ok data_len, buffer, s).
Proof.
  funelim (readinto_loop buf_len buffer data_len s);
    try match goal with E : (_ <? _) = _ |- _ => rewrite E end;
    try match goal with E : read1 _ _ = _ |- _ => rewrite E end;
    reflexivity.
Qed.

End AnyFile.

Lemma recalc_short_source_witness :
  exists s', _recalc_file acsf_short = (Ok tt, s')
             /\ _pos s' = 3 - (3 - 2)
             /\ _file_pos s' = 2
             /\ _file_index s' = 0%nat.
Proof.
  apply (@recalc_short_source _ _ acsf_short acsf_short 3 2
           (mkClampedIO (list_byte_of_string "ab") 0 4)
           (mkClampedIO (list_byte_of_string "ab") 2 4));
    [reflexivity | reflexivity | reflexivity | discriminate].
Defined.


(** ** The length table *)

Section LengthTable.

Context {F : Type} `{IOBase F}.

Local Abbreviation stream := (AsyncConcatenatedSeekableFile F).

Lemma keeps_bind {A B} (m : M F A) (k : A -> M F B) :
  keeps_lengths m -> (forall a, keeps_lengths (k a)) -> keeps_lengths (bind m k).
Proof.
  intros Hm Hk s. unfold bind. specialize (Hm s).
  destruct (m s) as [[a|e] s1]; simpl in *; [|assumption].
  now rewrite Hk.
Qed.

Lemma keeps_ret {A} (a : A) : keeps_lengths (@ret F A a).
Proof. now intros s. Qed.

Lemma keeps_raise {A} (e : exn) : keeps_lengths (@raise F A e).
Proof. now intros s. Qed.

Lemma keeps_gets {A} (f : stream -> A) : keeps_lengths (gets f).
Proof. now intros s. Qed.

Lemma keeps_eval {A} (f : stream -> result A) : keeps_lengths (eval f).
Proof. now intros s. Qed.

Lemma keeps_modify (g : stream -> stream) :
  (forall s, lengths (g s) = lengths s) -> keeps_lengths (modify g).
Proof. intros Hg s. apply Hg. Qed.

Lemma keeps_call_file {A} (i : nat) (m : F -> result A * F) :
  keeps_lengths (call_file i m).
Proof.
  intros s. unfold call_file. destruct (nth_error (files s) i); [|reflexivity].
  now destruct (m f).
Qed.

Lemma keeps_call_all {A} (m : F -> result A * F) :
  keeps_lengths (_call_on_all_files m).
Proof. intros s. unfold _call_on_all_files. now destruct (gather m (files s)). Qed.

Lemma keeps_find_file (pos : Z) :
  keeps_lengths (fun s : stream => find_file s pos).
Proof. intros s. apply find_file_lengths. Qed.

Create HintDb keeps.

#[local] Hint Resolve keeps_ret keeps_raise keeps_gets keeps_eval
  keeps_call_file keeps_call_all keeps_find_file : keeps.

Ltac keeps :=
  repeat first
    [ apply keeps_bind; [|intros ?]
    | apply keeps_modify; intros ?; reflexivity
    | match goal with |- keeps_lengths (if ?b then _ else _) => destruct b end
    | solve [auto with keeps] ].

Lemma keeps_recalc_file : keeps_lengths _recalc_file.
Proof. unfold _recalc_file. keeps. Qed.

Lemma keeps_readable : keeps_lengths readable.
Proof. unfold readable. keeps. Qed.

Lemma keeps_seekable : keeps_lengths seekable.
Proof. unfold seekable. keeps. Qed.

#[local] Hint Resolve keeps_recalc_file keeps_readable keeps_seekable : keeps.

Lemma keeps_read1 (amount : Z) : keeps_lengths (read1 amount).
Proof. unfold read1, _file_length. keeps. Qed.

Lemma keeps_seek (offset whence : Z) : keeps_lengths (seek offset whence).
Proof. unfold seek, __len__. keeps. Qed.

Lemma steps_lengths (os : list op) (s : stream) :
  lengths (steps os s) = lengths s.
Proof.
  unfold steps. revert s. induction os as [|o os IH]; intros s; [reflexivity|].
  simpl. rewrite IH.
  destruct o; [apply keeps_seek | apply keeps_read1].
Qed.

Lemma known_lengths (ls : list (option Z)) :
  has_unknown ls = false -> exists zs, ls = map Some zs.
Proof.
  induction ls as [|[z|] ls IH]; simpl; intros E.
  - now exists [].
  - destruct (IH E) as [zs ->]. now exists (z :: zs).
  - discriminate.
Qed.

Lemma sum_known (zs : list Z) (acc : Z) :
  sum (map Some zs) acc = Ok (acc + total_length zs).
Proof.
  revert acc. induction zs as [|z zs IH]; intros acc; simpl.
  - f_equal. lia.
  - rewrite IH. f_equal. lia.
Qed.

Lemma len_known (s : stream) (zs : list Z) :
  lengths s = Some (map Some zs) -> __len__ s = (Ok (total_length zs), s).
Proof. intros E. unfold __len__, eval. now rewrite E, sum_known. Qed.

(** What a successful [create] leaves: open, and one number per file. *)
Lemma create_Ok (fs : list F) (name : string) (s : stream) :
  create fs name = (Ok tt, s) ->
  exists zs, Forall2 (fun f z => flen f = Ok (Some z)) fs zs
             /\ s = mkACSF true 0 0 0 false name fs (Some (map Some zs)).
Proof.
  unfold create, __aenter__, __init__. unfold bind at 1, gets at 1; simpl.
  unfold bind at 1. rewrite call_all_query; simpl.
  destruct (fst (gather (query flen) fs)) as [ls|e] eqn:Eg; [|discriminate].
  apply gather_query_Ok in Eg.
  unfold bind, modify, ret, raise; simpl.
  destruct (has_unknown ls) eqn:Eu; [discriminate|].
  apply known_lengths in Eu. destruct Eu as [zs ->].
  intros E. inversion E; subst. exists zs. split; [|reflexivity].
  clear E. remember (map Some zs) as l eqn:El. revert zs El.
  induction Eg; intros zs El; destruct zs; try discriminate; constructor.
  - inversion El; subst. assumption.
  - apply IHEg. now inversion El.
Qed.

(** C8.  After initialization the total length is the sum of the lengths
    recorded for the files, and no sequence of [seek] and [read1] calls
    (returning or raising) changes the length table or the total. *)
Theorem total_length_invariant (fs : list F) (name : string) (s : stream)
  (os : list op) :
  create fs name = (Ok tt, s) ->
  exists zs, Forall2 (fun f z => flen f = Ok (Some z)) fs zs
             /\ lengths s = Some (map Some zs)
             /\ run __len__ s = Ok (total_length zs)
             /\ lengths (steps os s) = lengths s
             /\ run __len__ (steps os s) = Ok (total_length zs).
Proof.
  intros Hc. apply create_Ok in Hc. destruct Hc as (zs & Hf & ->).
  exists zs. split; [assumption|]. split; [reflexivity|].
  split; [unfold run; now rewrite (len_known _ zs)|].
  split; [apply steps_lengths|].
  unfold run. rewrite (len_known _ zs); [reflexivity|].
  now rewrite steps_lengths.
Qed.

End LengthTable.

Lemma total_length_invariant_witness :
  exists zs, Forall2 (fun f z => flen f = Ok (Some z)) in_f zs
             /\ lengths acsf = Some (map Some zs)
             /\ run __len__ acsf = Ok (total_length zs)
             /\ lengths (steps [Seek 6 SEEK_SET; Read1 3; Seek (-20) SEEK_CUR] acsf)
                = lengths acsf
             /\ run __len__ (steps [Seek 6 SEEK_SET; Read1 3; Seek (-20) SEEK_CUR] acsf)
                = Ok (total_length zs).
Proof.
  apply (@total_length_invariant _ _ in_f EmptyString acsf). reflexivity.
Defined.

(** ** Lists and the walk over the table *)

Section Lists.

Context {A : Type}.

Lemma len_nonneg (l : list A) : 0 <= len l.
Proof. unfold len. lia. Qed.

Lemma len_app (l l' : list A) : len (l ++ l') = len l + len l'.
Proof. unfold len. rewrite length_app. lia. Qed.

Lemma len_take (n : Z) (l : list A) :
  0 <= n -> len (take n l) = Z.min n (len l).
Proof. intros Hn. unfold len, take. rewrite length_firstn. lia. Qed.

Lemma len_drop (n : Z) (l : list A) :
  0 <= n -> len (drop n l) = Z.max 0 (len l - n).
Proof. intros Hn. unfold len, drop. rewrite length_skipn. lia. Qed.

Lemma take_all (n : Z) (l : list A) : len l <= n -> take n l = l.
Proof. intros Hn. unfold len, take in *. apply firstn_all2. lia. Qed.

Lemma drop_all (n : Z) (l : list A) : len l <= n -> drop n l = [].
Proof. intros Hn. unfold len, drop in *. apply skipn_all2. lia. Qed.

Lemma take_app_drop (a b : Z) (l : list A) :
  0 <= a -> 0 <= b -> take (a + b) l = take a l ++ take b (drop a l).
Proof.
  intros Ha Hb. unfold take, drop.
  replace (Z.to_nat (a + b)) with (Z.to_nat a + Z.to_nat b)%nat by lia.
  generalize (Z.to_nat a) as n. generalize (Z.to_nat b) as m. clear.
  intros m n. revert l. induction n as [|n IH]; intros l; [reflexivity|].
  destruct l as [|x l]; simpl; [now rewrite firstn_nil|]. now rewrite IH.
Qed.

Lemma drop_drop (a b : Z) (l : list A) :
  0 <= a -> 0 <= b -> drop b (drop a l) = drop (a + b) l.
Proof.
  intros Ha Hb. unfold drop. rewrite skipn_skipn. f_equal. lia.
Qed.

Lemma take_app_l (n : Z) (l l' : list A) :
  n <= len l -> take n (l ++ l') = take n l.
Proof.
  intros Hn. unfold take, len in *. rewrite firstn_app.
  replace (Z.to_nat n - List.length l)%nat with 0%nat by lia.
  simpl. apply app_nil_r.
Qed.

Lemma drop_app_l (n : Z) (l l' : list A) :
  n <= len l -> drop n (l ++ l') = drop n l ++ l'.
Proof.
  intros Hn. unfold drop, len in *. rewrite skipn_app.
  replace (Z.to_nat n - List.length l)%nat with 0%nat by lia. reflexivity.
Qed.

Lemma drop_app_r (n : Z) (l l' : list A) :
  len l <= n -> drop n (l ++ l') = drop (n - len l) l'.
Proof.
  intros Hn. unfold drop, len in *. rewrite skipn_app.
  rewrite skipn_all2 by lia. simpl. f_equal. lia.
Qed.

Lemma take_take (a b : Z) (l : list A) :
  a <= b -> take a (take b l) = take a l.
Proof.
  intros Hab. unfold take. rewrite firstn_firstn. f_equal. lia.
Qed.

Lemma take_0 (l : list A) : take 0 l = [].
Proof. reflexivity. Qed.

End Lists.

Section Walk.

Lemma locate_shift (ls : list Z) (i : nat) (pos : Z) :
  locate ls i pos = ((i + fst (locate ls 0 pos))%nat, snd (locate ls 0 pos)).
Proof.
  revert i pos. induction ls as [|l ls IH]; intros i pos; simpl.
  - f_equal. lia.
  - destruct ls as [|l' ls']; [simpl; f_equal; lia|].
    destruct (l <=? pos); [|simpl; f_equal; lia].
    rewrite (IH (S i)), (IH 1%nat). simpl. f_equal. lia.
Qed.

Lemma locate_cons (l l' : Z) (ls : list Z) (pos : Z) :
  locate (l :: l' :: ls) 0 pos =
  if l <=? pos
  then (S (fst (locate (l' :: ls) 0 (pos - l))),
        snd (locate (l' :: ls) 0 (pos - l)))
  else (0%nat, pos).
Proof.
  change (locate (l :: l' :: ls) 0 pos)
    with (if l <=? pos then locate (l' :: ls) 1 (pos - l) else (0%nat, pos)).
  destruct (l <=? pos); [|reflexivity]. now rewrite locate_shift.
Qed.

Lemma locate_index (ls : list Z) (pos : Z) :
  ls <> [] -> (fst (locate ls 0 pos) < List.length ls)%nat.
Proof.
  revert pos. induction ls as [|l ls IH]; intros pos Hne; [congruence|].
  destruct ls as [|l' ls']; [simpl; lia|].
  rewrite locate_cons. destruct (l <=? pos); [|simpl; lia].
  specialize (IH (pos - l)). simpl in *. assert (l' :: ls' <> []) by congruence.
  apply IH in H. lia.
Qed.

Lemma locate_offset (ls : list Z) (pos : Z) :
  0 <= pos -> 0 <= snd (locate ls 0 pos).
Proof.
  revert pos. induction ls as [|l ls IH]; intros pos Hp; [assumption|].
  destruct ls as [|l' ls']; [assumption|].
  rewrite locate_cons. destruct (l <=? pos) eqn:E; [|assumption].
  apply Z.leb_le in E. simpl. apply IH. lia.
Qed.

(** Inside the stream the walk stops in a file that still has bytes at the
    offset. *)
Lemma locate_inside (ls : list Z) (pos : Z) :
  Forall (fun l => 0 <= l) ls ->
  pos < total_length ls ->
  snd (locate ls 0 pos) < nth (fst (locate ls 0 pos)) ls 0.
Proof.
  revert pos. induction ls as [|l ls IH]; intros pos Hls Hp.
  - simpl in *. inversion Hls; lia.
  - inversion Hls as [|? ? Hl Hls']; subst.
    destruct ls as [|l' ls']; [simpl in *; lia|].
    rewrite locate_cons. destruct (l <=? pos) eqn:E.
    + apply Z.leb_le in E. cbn [fst snd nth]. apply IH; [assumption|].
      change (total_length (l :: l' :: ls')) with (l + total_length (l' :: ls')) in Hp.
      lia.
    + apply Z.leb_gt in E. simpl. assumption.
Qed.

(** At or past the end the walk stops in the last file, at or past its
    length. *)
Lemma locate_past_end (ls : list Z) (pos : Z) :
  Forall (fun l => 0 <= l) ls ->
  ls <> [] ->
  total_length ls <= pos ->
  S (fst (locate ls 0 pos)) = List.length ls
  /\ nth (fst (locate ls 0 pos)) ls 0 <= snd (locate ls 0 pos).
Proof.
  revert pos. induction ls as [|l ls IH]; intros pos Hls Hne Hp; [congruence|].
  inversion Hls as [|? ? Hl Hls']; subst.
  destruct ls as [|l' ls']; [simpl in *; split; [reflexivity | lia]|].
  assert (Ht : 0 <= total_length (l' :: ls')).
  { clear - Hls'. induction Hls'; simpl; [lia|]. unfold total_length in *.
    simpl in *. lia. }
  change (total_length (l :: l' :: ls')) with (l + total_length (l' :: ls')) in Hp.
  rewrite locate_cons. replace (l <=? pos) with true by lia.
  destruct (IH (pos - l)) as [Hi Ho]; [assumption | congruence | lia |].
  cbn [fst snd nth]. split; [simpl in *; lia | assumption].
Qed.

(** The bytes of the stream from [pos] on start in the file the walk stops
    at, at the offset it leaves. *)
Lemma locate_content (bufs : list bytes) (pos : Z) :
  bufs <> [] ->
  0 <= pos ->
  drop pos (List.concat bufs) =
  drop (snd (locate (map len bufs) 0 pos))
       (nth (fst (locate (map len bufs) 0 pos)) bufs [])
  ++ List.concat (skipn (S (fst (locate (map len bufs) 0 pos))) bufs).
Proof.
  revert pos. induction bufs as [|b bufs IH]; intros pos Hne Hp; [congruence|].
  destruct bufs as [|b' bufs'].
  - simpl. now rewrite !app_nil_r.
  - pose proof (locate_cons (len b) (len b') (map len bufs') pos) as E0.
    change (len b :: len b' :: map len bufs')
      with (map len (b :: b' :: bufs')) in E0.
    change (len b' :: map len bufs') with (map len (b' :: bufs')) in E0.
    rewrite E0. clear E0.
    change (List.concat (b :: b' :: bufs')) with (b ++ List.concat (b' :: bufs')).
    destruct (len b <=? pos) eqn:E.
    + apply Z.leb_le in E. rewrite drop_app_r by assumption.
      rewrite IH by (congruence || lia). reflexivity.
    + apply Z.leb_gt in E. cbn [fst snd nth skipn].
      apply drop_app_l. lia.
Qed.

Lemma Forall_firstn {A} (P : A -> Prop) (n : nat) (l : list A) :
  Forall P l -> Forall P (firstn n l).
Proof.
  intros Hl. revert n. induction Hl; intros [|n]; simpl; constructor; auto.
Qed.

Lemma total_length_nonneg (ls : list Z) :
  Forall (fun l => 0 <= l) ls -> 0 <= total_length ls.
Proof. induction 1; simpl; [lia|]. unfold total_length in *. simpl. lia. Qed.

(** From offset [0] the walk skips the empty files. *)
Lemma locate_zero (ls : list Z) (j : nat) :
  (j < List.length ls)%nat ->
  (forall k, (k < j)%nat -> nth k ls 0 = 0) ->
  0 < nth j ls 0 \/ S j = List.length ls ->
  locate ls 0 0 = (j, 0).
Proof.
  revert j. induction ls as [|l ls IH]; intros j Hj Hz Hend; [simpl in Hj; lia|].
  destruct ls as [|l' ls'].
  - simpl in *. f_equal. lia.
  - rewrite locate_cons. destruct j as [|j].
    + destruct Hend as [Hl|Hl]; [|simpl in Hl; lia]. simpl in Hl.
      now replace (l <=? 0) with false by lia.
    + assert (Hl : l = 0) by (apply (Hz 0%nat); lia). subst l.
      cbn [Z.leb Z.compare]. rewrite Z.sub_0_r.
      rewrite (IH j); [reflexivity | simpl in *; lia | |].
      * intros k Hk. apply (Hz (S k)). lia.
      * destruct Hend as [Hl|Hl]; [left; exact Hl | right; simpl in *; lia].
Qed.

(** At the end of file [i] the walk stops at the start of the first later
    file that has bytes, or of the last file. *)
Lemma locate_boundary (ls : list Z) (i j : nat) :
  Forall (fun l => 0 <= l) ls ->
  (i < j < List.length ls)%nat ->
  (forall k, (i < k < j)%nat -> nth k ls 0 = 0) ->
  0 < nth j ls 0 \/ S j = List.length ls ->
  locate ls 0 (total_length (firstn (S i) ls)) = (j, 0).
Proof.
  revert i j. induction ls as [|l ls IH]; intros i j Hls Hij Hz Hend;
    [simpl in Hij; lia|].
  inversion Hls as [|? ? Hl Hls']; subst.
  destruct j as [|j]; [lia|].
  destruct ls as [|l' ls']; [simpl in Hij; lia|].
  assert (Hend' : 0 < nth j (l' :: ls') 0 \/ S j = List.length (l' :: ls')).
  { destruct Hend as [He|He]; [left; exact He | right; simpl in *; lia]. }
  change (total_length (firstn (S i) (l :: l' :: ls')))
    with (l + total_length (firstn i (l' :: ls'))).
  pose proof (total_length_nonneg (Forall_firstn i Hls')) as Ht.
  rewrite locate_cons.
  replace (l <=? l + total_length (firstn i (l' :: ls'))) with true by lia.
  replace (l + total_length (firstn i (l' :: ls')) - l)
    with (total_length (firstn i (l' :: ls'))) by lia.
  destruct i as [|i].
  - cbn [firstn total_length fold_right].
    rewrite (@locate_zero (l' :: ls') j); [reflexivity | simpl in *; lia | | exact Hend'].
    intros k Hk. apply (Hz (S k)). lia.
  - rewrite (IH i j); [reflexivity | exact Hls' | simpl in *; lia | | exact Hend'].
    intros k Hk. apply (Hz (S k)). lia.
Qed.

End Walk.

Section Store.

Context {A : Type}.

Lemma store_length (i : nat) (x : A) (l : list A) :
  List.length (store i x l) = List.length l.
Proof.
  revert i. induction l as [|y l IH]; intros [|i]; simpl; auto.
Qed.

Lemma store_nth_error (i : nat) (x : A) (l : list A) :
  (i < List.length l)%nat -> nth_error (store i x l) i = Some x.
Proof.
  revert i. induction l as [|y l IH]; intros [|i] Hi; simpl in *;
    try lia; [reflexivity|]. apply IH. lia.
Qed.

Lemma store_map {B} (g : A -> B) (i : nat) (x y : A) (l : list A) :
  nth_error l i = Some y -> g x = g y -> map g (store i x l) = map g l.
Proof.
  revert i. induction l as [|z l IH]; intros [|i] Hy Hg; simpl in *;
    try discriminate.
  - inversion Hy; subst. now rewrite Hg.
  - f_equal. now apply IH.
Qed.

Lemma store_Forall (P : A -> Prop) (i : nat) (x : A) (l : list A) :
  Forall P l -> P x -> Forall P (store i x l).
Proof.
  intros Hl Hx. revert i. induction Hl as [|y l Hy Hl IH]; intros [|i]; simpl;
    constructor; auto.
Qed.

Lemma store_same (i : nat) (x : A) (l : list A) :
  nth_error l i = Some x -> store i x l = l.
Proof.
  revert i. induction l as [|y l IH]; intros [|i] Hx; simpl in *;
    try discriminate.
  - now inversion Hx.
  - f_equal. now apply IH.
Qed.

Lemma skipn_nth (d : A) (i : nat) (l : list A) :
  (i < List.length l)%nat -> skipn i l = nth i l d :: skipn (S i) l.
Proof.
  revert i. induction l as [|y l IH]; intros [|i] Hi; simpl in *; try lia.
  - reflexivity.
  - apply IH. lia.
Qed.

End Store.

Section WalkInCode.

Context {F : Type} `{IOBase F}.

Local Abbreviation stream := (AsyncConcatenatedSeekableFile F).

Lemma length_at_known (s : stream) (ls : list Z) (i : nat) :
  lengths s = Some (map Some ls) ->
  (i < List.length ls)%nat ->
  length_at i s = Ok (nth i ls 0).
Proof.
  intros El Hi. unfold length_at. rewrite El.
  rewrite nth_error_map, (nth_error_nth' ls 0 Hi). reflexivity.
Qed.

(** The loop of [_recalc_file] computes [locate] on the rest of the table. *)
Lemma find_file_locate (s : stream) (ls : list Z) (pos : Z) :
  lengths s = Some (map Some ls) ->
  List.length (files s) = List.length ls ->
  (_file_index s < List.length ls)%nat ->
  find_file s pos =
  (Ok (snd (locate (skipn (_file_index s) ls) (_file_index s) pos)),
   set_file_index (fst (locate (skipn (_file_index s) ls) (_file_index s) pos)) s).
Proof.
  remember (List.length ls - _file_index s)%nat as n eqn:En.
  revert s pos En. induction n as [n IH] using lt_wf_ind.
  intros s pos En El Hf Hi.
  rewrite find_file_step, (length_at_known s ls El Hi), Hf.
  rewrite (skipn_nth 0 _ Hi).
  destruct (skipn (S (_file_index s)) ls) as [|l' rest] eqn:Er.
  - assert (S (_file_index s) = List.length ls).
    { apply (f_equal (@List.length Z)) in Er. rewrite length_skipn in Er.
      simpl in Er. lia. }
    replace (S (_file_index s) <? List.length ls)%nat with false
      by (symmetry; apply Nat.ltb_ge; lia).
    rewrite andb_false_r. simpl. now destruct s.
  - assert (S (_file_index s) < List.length ls)%nat.
    { apply (f_equal (@List.length Z)) in Er. rewrite length_skipn in Er.
      simpl in Er. lia. }
    replace (S (_file_index s) <? List.length ls)%nat with true
      by (symmetry; apply Nat.ltb_lt; lia).
    rewrite andb_true_r.
    change (locate (nth (_file_index s) ls 0 :: l' :: rest) (_file_index s) pos)
      with (if nth (_file_index s) ls 0 <=? pos
            then locate (l' :: rest) (S (_file_index s))
                        (pos - nth (_file_index s) ls 0)
            else (_file_index s, pos)).
    destruct (nth (_file_index s) ls 0 <=? pos); [|now destruct s].
    assert (Hlt : (List.length ls - S (_file_index s) < n)%nat) by lia.
    rewrite (IH _ Hlt (set_file_index (S (_file_index s)) s)
               (pos - nth (_file_index s) ls 0) eq_refl El Hf H0).
    cbn [_file_index set_file_index]. rewrite Er. reflexivity.
Qed.

End WalkInCode.

(** ** Streams over files that keep the contract: seeking and reading *)

Section OverFaithfulFiles.

Unset Implicit Arguments.

Context {F : Type} `{Faithful F}.

Local Abbreviation stream := (AsyncConcatenatedSeekableFile F).

Lemma opened_table (s : stream) :
  opened s ->
  lengths s = Some (map Some (map len (map fdata (files s)))).
Proof. intros Ho. rewrite (opened_lengths Ho), !map_map. reflexivity. Qed.

Lemma gather_open {A} (q : F -> result A) (a : A) (fs : list F) :
  (forall f, is_open f -> q f = Ok a) ->
  Forall is_open fs ->
  fst (gather (query q) fs) = Ok (map (fun _ => a) fs).
Proof.
  intros Hq Hfs. induction Hfs as [|f fs Hf Hfs IH]; [reflexivity|].
  simpl. destruct (gather (query q) fs) as [rs fs']. unfold query; simpl in *.
  now rewrite (Hq f Hf), IH.
Qed.

Lemma all_true {A} (l : list A) : all (map (fun _ => true) l) = true.
Proof. induction l; simpl; auto. Qed.

Lemma seekable_opened (s : stream) : opened s -> seekable s = (Ok true, s).
Proof.
  intros Ho. unfold seekable, bind. rewrite call_all_query.
  rewrite (gather_open fseekable true);
    [| exact seekable_spec | apply (opened_files Ho)].
  unfold ret. now rewrite all_true.
Qed.

Lemma readable_opened (s : stream) : opened s -> readable s = (Ok true, s).
Proof.
  intros Ho. unfold readable, bind, gets. rewrite (opened_flag Ho).
  rewrite call_all_query.
  rewrite (gather_open freadable true);
    [| exact readable_spec | apply (opened_files Ho)].
  unfold ret. now rewrite all_true.
Qed.

(** A call that moves the cursor of one file keeps the stream opened and
    its bytes. *)
Lemma opened_store (s : stream) (i : nat) (f f' : F) :
  opened s ->
  nth_error (files s) i = Some f ->
  fdata f' = fdata f ->
  is_open f' ->
  opened (set_files (store i f' (files s)) s)
  /\ map fdata (store i f' (files s)) = map fdata (files s).
Proof.
  intros Ho Hf Hb Hc.
  assert (Hm : map fdata (store i f' (files s)) = map fdata (files s))
    by (apply store_map with (y := f); assumption).
  split; [|exact Hm]. constructor; cbn [set_files _closed files lengths].
  - apply (opened_flag Ho).
  - intros E. apply (f_equal (@List.length F)) in E.
    rewrite store_length in E. apply (opened_some Ho).
    now apply length_zero_iff_nil.
  - apply store_Forall; [apply (opened_files Ho) | exact Hc].
  - rewrite (opened_lengths Ho). f_equal.
    symmetry. apply store_map with (y := f); [assumption | now rewrite Hb].
Qed.

Lemma opened_nth (s : stream) (i : nat) (f : F) :
  opened s -> nth_error (files s) i = Some f -> is_open f.
Proof.
  intros Ho Ef. pose proof (opened_files Ho) as Ha.
  rewrite Forall_forall in Ha. apply Ha. eapply nth_error_In. exact Ef.
Qed.

(** Resync on an opened stream with a cursor that is not negative: it
    returns, keeps the cursor and leaves the stream synced. *)
Lemma recalc_synced (s : stream) :
  opened s ->
  0 <= _pos s ->
  exists s', _recalc_file s = (Ok tt, s')
             /\ synced (map fdata (files s)) (_pos s) s'.
Proof.
  intros Ho Hp.
  set (bufs := map fdata (files s)).
  set (ls := map len bufs).
  assert (Hlen : List.length (files s) = List.length ls)
    by (unfold ls, bufs; now rewrite !length_map).
  assert (Hne : ls <> []).
  { intros E. apply (opened_some Ho). apply length_zero_iff_nil.
    rewrite Hlen, E. reflexivity. }
  pose proof (locate_index (_pos s) Hne) as Hj.
  pose proof (locate_offset ls Hp) as Hoff.
  destruct (locate ls 0 (_pos s)) as [j off] eqn:Eloc. cbn [fst snd] in *.
  destruct (nth_error (files s) j) as [f|] eqn:Ef;
    [|apply nth_error_None in Ef; lia].
  destruct (seek_spec f off (opened_nth s j f Ho Ef) Hoff)
    as (f' & Hseek & Hd & Hc & Hfo).
  destruct (opened_store s j f f' Ho Ef Hd Hfo) as [Ho' Hm].
  exists (set_file_pos off (set_files (store j f' (files s)) (set_file_index j s))).
  split.
  - unfold _recalc_file, bind, gets, modify; cbn [fst snd].
    rewrite (find_file_locate (set_file_pos 0 (set_file_index 0 s)) ls);
      cbn [set_file_pos set_file_index lengths files _file_index];
      [| apply (opened_table s Ho) | exact Hlen | destruct ls; [congruence | simpl; lia] ].
    cbn [skipn]. rewrite Eloc. cbn [fst snd].
    unfold call_file. cbn [files _file_index set_file_index set_file_pos].
    rewrite Ef, Hseek. rewrite Z.eqb_refl. cbn.
    reflexivity.
  - constructor; cbn [set_file_pos set_files set_file_index files _pos
                      _file_index _file_pos].
    + destruct Ho' as [? ? ? ?]. constructor; assumption.
    + exact Hm.
    + reflexivity.
    + exact Eloc.
    + exists f'. split; [|exact Hc]. apply store_nth_error. lia.
Qed.

(** [seek(p)] from the start on an opened stream, for [0 <= p]: it returns
    [p] and leaves the stream synced at [p]. *)
Lemma seek_synced (s : stream) (p : Z) :
  opened s ->
  0 <= p ->
  exists s', seek p SEEK_SET s = (Ok p, s')
             /\ synced (map fdata (files s)) p s'.
Proof.
  intros Ho Hp.
  destruct (recalc_synced (set_pos (0 + p) s)) as (s' & Hr & Hs).
  { destruct Ho as [? ? ? ?]. constructor; assumption. }
  { simpl. lia. }
  exists s'. split.
  - unfold seek. unfold bind at 1, gets at 1. rewrite (opened_flag Ho).
    unfold bind at 1. rewrite (seekable_opened s Ho). cbn [negb].
    rewrite Z.eqb_refl. unfold bind at 1, modify at 1. unfold bind at 1, modify at 1.
    unfold bind at 1. cbn [set_pos _pos].
    replace (set_pos (0 + p) (set_pos 0 s)) with (set_pos (0 + p) s)
      by (now destruct s).
    rewrite Hr. unfold gets. f_equal. f_equal.
    rewrite (synced_pos Hs). simpl. lia.
  - replace p with (_pos (set_pos (0 + p) s)) at 1 by (simpl; lia).
    exact Hs.
Qed.

Lemma take_len_take {A} (n : Z) (l : list A) :
  0 <= n -> take (len (take n l)) l = take n l.
Proof.
  intros Hn. rewrite len_take by assumption.
  destruct (Z.le_gt_cases n (len l)).
  - now rewrite Z.min_l.
  - rewrite Z.min_r by lia. rewrite !take_all by lia. reflexivity.
Qed.

Lemma lens_nonneg (bufs : list bytes) : Forall (fun l => 0 <= l) (map len bufs).
Proof. induction bufs; constructor; [apply len_nonneg | assumption]. Qed.

Lemma nth_len (bufs : list bytes) (i : nat) :
  nth i (map len bufs) 0 = len (nth i bufs []).
Proof. change 0 with (len (@nil byte)). apply map_nth. Qed.

(** One [read1] on a synced stream: it returns the next bytes of the
    stream, from the active file only, and leaves the stream synced right
    after them. *)
Lemma read1_synced (bufs : list bytes) (p amount : Z) (s : stream) :
  synced bufs p s ->
  0 <= p ->
  exists chunk s',
    read1 amount s = (Ok chunk, s')
    /\ synced bufs (p + len chunk) s'
    /\ chunk = take (len chunk) (drop p (List.concat bufs))
    /\ (0 <= amount -> len chunk <= amount)
    /\ (p < total_length (map len bufs) -> amount <> 0 -> 0 < len chunk)
    /\ (total_length (map len bufs) <= p -> chunk = []).
Proof.
  intros [Ho Hb Hpos Hat (f & Ef & Hcur)] Hp.
  assert (Hne : bufs <> []).
  { intros E. apply (opened_some Ho). rewrite E in Hb.
    now apply map_eq_nil in Hb. }
  assert (Hlne : map len bufs <> []).
  { intros E. apply Hne. now apply map_eq_nil in E. }
  assert (Hoff : 0 <= fcursor f).
  { rewrite Hcur. pose proof (locate_offset (map len bufs) Hp) as Hl.
    now rewrite Hat in Hl. }
  assert (Hi : (_file_index s < List.length (files s))%nat).
  { apply nth_error_Some. now rewrite Ef. }
  assert (Hbuf : nth (_file_index s) bufs [] = fdata f).
  { rewrite <- Hb. erewrite nth_indep by (rewrite length_map; exact Hi).
    rewrite (map_nth fdata (files s) f). f_equal. now apply nth_error_nth. }
  destruct (read_spec f amount (opened_nth s _ f Ho Ef) Hoff)
    as (size & f1 & Hread & Hd1 & Hc1 & Hfo1 & Hsize & Hamt & Hin).
  set (chunk := take size (drop (fcursor f) (fdata f))) in *.
  assert (Hlc : len chunk = size).
  { unfold chunk. rewrite len_take, len_drop by lia. lia. }
  destruct (opened_store s (_file_index s) f f1 Ho Ef Hd1 Hfo1) as [Ho1 Hm1].
  set (s3 := set_pos (p + len chunk)
               (set_file_pos (fcursor f1)
                  (set_files (store (_file_index s) f1 (files s)) s))).
  assert (Ho3 : opened s3).
  { destruct Ho1 as [? ? ? ?]. constructor; assumption. }
  destruct (recalc_synced s3 Ho3) as (s' & Hr & Hs').
  { cbn. pose proof (len_nonneg chunk). lia. }
  exists chunk, s'. split; [|split; [|split; [|split; [|split]]]].
  - unfold read1. unfold bind at 1, gets at 1. rewrite (opened_flag Ho).
    unfold bind at 1. rewrite (readable_opened s Ho). cbn [negb].
    unfold bind at 1, gets at 1. unfold bind at 1, gets at 1.
    unfold bind at 1. unfold call_file at 1. rewrite Ef, Hread.
    unfold bind at 1, _file_length, eval.
    cbn [set_files _file_index lengths].
    rewrite length_at_known with (ls := map len (map fdata (files s)));
      [| cbn [lengths set_files]; apply (opened_table s Ho)
       | rewrite !length_map; exact Hi ].
    rewrite Hb, nth_len, Hbuf.
    fold chunk. rewrite <- Hcur.
    replace (Z.max (len (fdata f) - fcursor f) 0 <? len chunk)
      with false by lia.
    unfold bind at 1, gets at 1. unfold bind at 1, call_file at 1.
    cbn [set_files files _file_index].
    rewrite store_nth_error by exact Hi.
    unfold query. rewrite (tell_spec f1 Hfo1).
    rewrite (store_same _ _ (store_nth_error _ _ Hi)).
    unfold bind at 1, modify at 1. unfold bind at 1, modify at 1.
    unfold bind at 1.
    cbn [set_files set_file_pos set_pos _pos files _file_index _file_pos
         lengths __inited _closed _name].
    rewrite Hpos.
    match goal with |- context [_recalc_file ?x] => change x with s3 end.
    rewrite Hr. reflexivity.
  - cbn [s3 set_pos set_file_pos set_files files _pos] in Hs'.
    rewrite Hm1, Hb in Hs'. exact Hs'.
  - rewrite (locate_content Hne Hp), Hat. cbn [fst snd].
    rewrite Hbuf, <- Hcur. rewrite take_app_l.
    + unfold chunk. symmetry. apply take_len_take. lia.
    + rewrite Hlc, len_drop by lia. lia.
  - intros Ha. specialize (Hamt Ha). lia.
  - intros Hlt Hz.
    pose proof (locate_inside (lens_nonneg bufs) Hlt) as Hl.
    rewrite Hat in Hl. cbn [fst snd] in Hl. rewrite nth_len, Hbuf, <- Hcur in Hl.
    specialize (Hin Hl Hz). lia.
  - intros Hge.
    destruct (locate_past_end (lens_nonneg bufs) Hlne Hge) as [_ Hl].
    rewrite Hat in Hl. cbn [fst snd] in Hl. rewrite nth_len, Hbuf, <- Hcur in Hl.
    unfold chunk. rewrite drop_all by exact Hl. unfold take. apply firstn_nil.
Qed.

Lemma table_bufs (s : stream) : table s = map len (map fdata (files s)).
Proof. unfold table. now rewrite map_map. Qed.

(** Past the end every [read1] returns empty bytes, however many follow. *)
Lemma read1_past_end (bufs : list bytes) (p : Z) (amounts : list Z) (s : stream) :
  synced bufs p s ->
  0 <= p ->
  total_length (map len bufs) <= p ->
  exists s', each read1 amounts s = (Ok (map (fun _ => []) amounts), s')
             /\ synced bufs p s'.
Proof.
  intros Hs Hp Hge. revert s Hs.
  induction amounts as [|a amounts IH]; intros s Hs.
  - exists s. split; [reflexivity | exact Hs].
  - destruct (read1_synced bufs p a s Hs Hp)
      as (chunk & s1 & Hr & Hs1 & _ & _ & _ & Hnil).
    specialize (Hnil Hge). subst chunk.
    change (len (@nil byte)) with 0 in Hs1. rewrite Z.add_0_r in Hs1.
    destruct (IH s1 Hs1) as (s' & He & Hs').
    exists s'. split; [|exact Hs'].
    cbn [each map]. unfold bind at 1. rewrite Hr.
    unfold bind at 1. rewrite He. reflexivity.
Qed.

(** The loop of [readinto] on a synced stream with enough bytes left: it
    fills the buffer from [data_len] on with the next bytes of the stream
    and returns the buffer length. *)
Lemma readinto_loop_synced (bufs : list bytes) (n : nat) :
  forall (buf_len : Z) (buffer : bytes) (data_len p : Z) (s : stream),
    n = Z.to_nat (buf_len - data_len) ->
    synced bufs p s ->
    0 <= p ->
    0 <= data_len <= buf_len ->
    len buffer = buf_len ->
    p + (buf_len - data_len) <= total_length (map len bufs) ->
    exists s',
      readinto_loop buf_len buffer data_len s
      = (Ok buf_len,
         take data_len buffer
         ++ take (buf_len - data_len) (drop p (List.concat bufs)), s')
      /\ synced bufs (p + (buf_len - data_len)) s'.
Proof.
  induction n as [n IH] using lt_wf_ind.
  intros buf_len buffer data_len p s En Hs Hp Hd Hlen Hfit.
  rewrite readinto_loop_step.
  destruct (data_len <? buf_len) eqn:Elt.
  - apply Z.ltb_lt in Elt.
    destruct (read1_synced bufs p (buf_len - data_len) s Hs Hp)
      as (chunk & s1 & Hr & Hs1 & Hchunk & Hle & Hpos & _).
    assert (H1 : 0 < len chunk) by (apply Hpos; lia).
    assert (H2 : len chunk <= buf_len - data_len) by (apply Hle; lia).
    rewrite Hr. destruct chunk as [|b data] eqn:Ec; [cbn in H1; lia|].
    rewrite <- Ec in *. clear Ec.
    assert (Hl' : len (slice_assign buffer data_len chunk) = buf_len).
    { unfold slice_assign. rewrite !len_app, len_take, len_drop by lia. lia. }
    destruct (IH (Z.to_nat (buf_len - (data_len + len chunk))) ltac:(lia)
                buf_len (slice_assign buffer data_len chunk)
                (data_len + len chunk) (p + len chunk) s1 eq_refl Hs1
                ltac:(lia) ltac:(lia) Hl' ltac:(lia))
      as (s' & Hloop & Hs').
    exists s'. split.
    + rewrite Hloop. f_equal. f_equal.
      unfold slice_assign. rewrite app_assoc.
      rewrite take_app_l by (rewrite len_app, len_take by lia; lia).
      rewrite take_all by (rewrite len_app, len_take by lia; lia).
      rewrite <- app_assoc. f_equal.
      replace (buf_len - data_len)
        with (len chunk + (buf_len - (data_len + len chunk))) by lia.
      rewrite take_app_drop by lia. rewrite <- Hchunk.
      rewrite drop_drop by lia. reflexivity.
    + replace (p + (buf_len - data_len))
        with (p + len chunk + (buf_len - (data_len + len chunk))) by lia.
      exact Hs'.
  - apply Z.ltb_ge in Elt. assert (data_len = buf_len) by lia. subst data_len.
    exists s. split.
    + rewrite Z.sub_diag, take_0, app_nil_r, take_all by lia. reflexivity.
    + rewrite Z.sub_diag, Z.add_0_r. exact Hs.
Qed.

Lemma len_repeat {A} (x : A) (n : Z) : 0 <= n -> len (repeat x (Z.to_nat n)) = n.
Proof. intros Hn. unfold len. rewrite repeat_length. lia. Qed.

(** [read(n)] on a synced stream with at least [n] bytes left returns the
    next [n] bytes of the stream. *)
Lemma read_synced (bufs : list bytes) (p n : Z) (s : stream) :
  synced bufs p s ->
  0 <= p ->
  0 <= n ->
  p + n <= total_length (map len bufs) ->
  exists s', read n s = (Ok (take n (drop p (List.concat bufs))), s')
             /\ synced bufs (p + n) s'.
Proof.
  intros Hs Hp Hn Hfit.
  assert (Hl : __len__ s = (Ok (total_length (map len bufs)), s)).
  { apply len_known. rewrite <- (synced_bufs Hs).
    apply opened_table, (synced_opened Hs). }
  destruct (readinto_loop_synced bufs _ n (repeat x00 (Z.to_nat n)) 0 p s
              eq_refl Hs Hp ltac:(lia) (len_repeat x00 n Hn) ltac:(lia))
    as (s' & Hloop & Hs').
  exists s'. split.
  - unfold read. unfold bind at 1.
    replace (n <? 0) with false by lia.
    unfold bind at 1. rewrite Hl. unfold bind at 1, gets at 1. unfold ret at 1.
    rewrite (synced_pos Hs).
    replace (total_length (map len bufs) - p <? n) with false by lia.
    unfold bind at 1, ret at 1. unfold bind at 1, eval, bytearray.
    replace (n <? 0) with false by lia.
    unfold readinto. rewrite len_repeat by exact Hn. rewrite Hloop.
    rewrite Z.sub_0_r. reflexivity.
  - rewrite Z.sub_0_r in Hs'. exact Hs'.
Qed.

(** Bounded reads in sequence return the stream's bytes in sequence. *)
Lemma reads_synced (bufs : list bytes) (amounts : list Z) :
  forall (p : Z) (s : stream),
    synced bufs p s ->
    0 <= p ->
    Forall (fun a => 0 <= a) amounts ->
    p + total_length amounts <= total_length (map len bufs) ->
    exists chunks s',
      each read amounts s = (Ok chunks, s')
      /\ List.concat chunks
         = take (total_length amounts) (drop p (List.concat bufs))
      /\ synced bufs (p + total_length amounts) s'.
Proof.
  induction amounts as [|a amounts IH]; intros p s Hs Hp Ha Hfit.
  - exists [], s. split; [reflexivity|]. split; [reflexivity|].
    cbn. rewrite Z.add_0_r. exact Hs.
  - inversion Ha as [|? ? Ha0 Ha']; subst.
    pose proof (total_length_nonneg Ha') as Ht.
    change (total_length (a :: amounts)) with (a + total_length amounts) in *.
    destruct (read_synced bufs p a s Hs Hp Ha0 ltac:(lia)) as (s1 & Hr & Hs1).
    destruct (IH (p + a) s1 Hs1 ltac:(lia) Ha' ltac:(lia))
      as (chunks & s' & He & Hc & Hs').
    exists (take a (drop p (List.concat bufs)) :: chunks), s'.
    split; [|split].
    + cbn [each]. unfold bind at 1. rewrite Hr. unfold bind at 1. rewrite He.
      reflexivity.
    + cbn [List.concat]. rewrite Hc, take_app_drop, drop_drop by lia.
      reflexivity.
    + rewrite Z.add_assoc. exact Hs'.
Qed.

(** Single reads in sequence return consecutive bytes of the stream, as
    many as they return and no more than was asked for. *)
Lemma read1s_synced (bufs : list bytes) (amounts : list Z) :
  forall (p : Z) (s : stream),
    synced bufs p s ->
    0 <= p ->
    Forall (fun a => 0 <= a) amounts ->
    exists raw s',
      each read1 amounts s = (Ok raw, s')
      /\ List.concat raw
         = take (len (List.concat raw)) (drop p (List.concat bufs))
      /\ len (List.concat raw) <= total_length amounts.
Proof.
  induction amounts as [|a amounts IH]; intros p s Hs Hp Ha.
  - exists [], s. split; [reflexivity|]. split; [reflexivity|]. cbn. lia.
  - inversion Ha as [|? ? Ha0 Ha']; subst.
    destruct (read1_synced bufs p a s Hs Hp)
      as (chunk & s1 & Hr & Hs1 & Hchunk & Hle & _ & _).
    pose proof (len_nonneg chunk) as Hc0.
    destruct (IH (p + len chunk) s1 Hs1 ltac:(lia) Ha')
      as (raw & s' & He & Hraw & Hlen).
    exists (chunk :: raw), s'. split; [|split].
    + cbn [each]. unfold bind at 1. rewrite Hr. unfold bind at 1. rewrite He.
      reflexivity.
    + cbn [List.concat]. rewrite len_app.
      rewrite take_app_drop by (try apply len_nonneg; lia).
      rewrite <- Hchunk, drop_drop by lia. now rewrite <- Hraw.
    + cbn [List.concat]. rewrite len_app.
      change (total_length (a :: amounts)) with (a + total_length amounts).
      specialize (Hle Ha0). lia.
Qed.

(** C1.  On an open stream over files that keep the contract and hold what
    the table records, for [0 <= p <= total_length], [seek(p, SEEK_SET)]
    returns [p] and a [tell] right after returns [p] too (and leaves the
    stream as it is). *)
Theorem seek_then_tell (s : stream) (p : Z) :
  opened s ->
  0 <= p <= total_length (table s) ->
  exists s', seek p SEEK_SET s = (Ok p, s') /\ tell s' = (Ok p, s').
Proof.
  intros Ho [Hp _]. destruct (seek_synced s p Ho Hp) as (s' & Hk & Hs).
  exists s'. split; [exact Hk|]. unfold tell, gets. now rewrite (synced_pos Hs).
Qed.

(** C2, as amended.  Seeking to the end of file [i] (not the last) makes
    the active file the first later file [j] that is not empty, or the last
    file when all later ones are empty, at offset [0]; that is file [i+1]
    whenever file [i+1] is not empty or is the last.  Seeking to or past
    the total length makes the last file active, and every [read1] that
    follows returns empty bytes. *)
Theorem seek_boundary (s : stream) :
  opened s ->
  (forall i j : nat,
      (i < j < List.length (files s))%nat ->
      (forall k, (i < k < j)%nat -> nth k (table s) 0 = 0) ->
      0 < nth j (table s) 0 \/ S j = List.length (files s) ->
      exists s',
        seek (total_length (firstn (S i) (table s))) SEEK_SET s
        = (Ok (total_length (firstn (S i) (table s))), s')
        /\ _file_index s' = j /\ _file_pos s' = 0)
  /\ (forall p : Z,
         total_length (table s) <= p ->
         exists s',
           seek p SEEK_SET s = (Ok p, s')
           /\ S (_file_index s') = List.length (files s)
           /\ forall amounts : list Z,
               run (each read1 amounts) s' = Ok (map (fun _ => []) amounts)).
Proof.
  intros Ho.
  pose proof (lens_nonneg (map fdata (files s))) as Hnn.
  rewrite <- table_bufs in Hnn.
  assert (Hlen : List.length (table s) = List.length (files s))
    by (unfold table; apply length_map).
  split.
  - intros i j Hij Hz Hend.
    pose proof (total_length_nonneg (Forall_firstn (S i) Hnn)) as Hp.
    destruct (seek_synced s _ Ho Hp) as (s' & Hk & Hs).
    exists s'. split; [exact Hk|].
    pose proof (synced_at Hs) as Hat. rewrite <- table_bufs in Hat.
    rewrite (@locate_boundary (table s) i j) in Hat;
      [| exact Hnn | lia | exact Hz | rewrite Hlen; exact Hend ].
    inversion Hat. split; reflexivity.
  - intros p Hge.
    pose proof (total_length_nonneg Hnn) as Ht.
    assert (Hp : 0 <= p) by lia.
    destruct (seek_synced s p Ho Hp) as (s' & Hk & Hs).
    exists s'. split; [exact Hk|].
    pose proof (synced_at Hs) as Hat. rewrite <- table_bufs in Hat.
    assert (Hne : table s <> []).
    { intros E. apply (opened_some Ho). apply length_zero_iff_nil.
      rewrite <- Hlen, E. reflexivity. }
    destruct (locate_past_end Hnn Hne Hge) as [Hlast _].
    rewrite Hat in Hlast. cbn [fst] in Hlast. split; [lia|].
    intros amounts. rewrite table_bufs in Hge.
    destruct (read1_past_end _ p amounts s' Hs Hp Hge) as (s'' & He & _).
    unfold run. now rewrite He.
Qed.

(** C3, as amended.  Once [seek(p, SEEK_SET)] has returned, for [0 <= p]
    and any split of [n] into amounts that are not negative, with [p + n]
    within the total length: the bounded reads [read(a)] issued in sequence
    from the state the seek leaves (each loops [read1] until its amount is
    there) return chunks whose concatenation is what one [read(n)] issued
    from that same state returns, the bytes [p .. p+n) of the stream.  Bare
    [read1(a)] calls in sequence from that state return consecutive bytes
    as well, though possibly fewer than [n], one [read1] never reading
    across two files: their concatenation is a prefix of those bytes. *)
Theorem split_reads (s : stream) (p : Z) (amounts : list Z) :
  opened s ->
  0 <= p ->
  Forall (fun a => 0 <= a) amounts ->
  p + total_length amounts <= total_length (table s) ->
  exists s0 chunks raw,
    seek p SEEK_SET s = (Ok p, s0)
    /\ run (each read amounts) s0 = Ok chunks
    /\ run (read (total_length amounts)) s0 = Ok (List.concat chunks)
    /\ List.concat chunks = take (total_length amounts) (drop p (content s))
    /\ run (each read1 amounts) s0 = Ok raw
    /\ List.concat raw = take (len (List.concat raw)) (List.concat chunks).
Proof.
  intros Ho Hp Ha Hfit. rewrite table_bufs in Hfit.
  pose proof (total_length_nonneg Ha) as Hn.
  destruct (seek_synced s p Ho Hp) as (s0 & Hk & Hs).
  destruct (reads_synced _ amounts p s0 Hs Hp Ha Hfit)
    as (chunks & s1 & He & Hc & _).
  destruct (read_synced _ p (total_length amounts) s0 Hs Hp Hn Hfit)
    as (s2 & Hr & _).
  destruct (read1s_synced _ amounts p s0 Hs Hp Ha)
    as (raw & s3 & He1 & Hraw & Hlen).
  exists s0, chunks, raw. unfold run, content.
  rewrite He, Hr, He1, Hc. cbn [fst].
  repeat split; try reflexivity; try assumption.
  rewrite take_take by exact Hlen. exact Hraw.
Qed.

End OverFaithfulFiles.

Lemma acsf_opened : opened acsf.
Proof.
  constructor; [reflexivity | discriminate | repeat constructor | reflexivity].
Defined.

Lemma seek_then_tell_witness :
  exists s', seek 6 SEEK_SET acsf = (Ok 6, s') /\ tell s' = (Ok 6, s').
Proof.
  apply seek_then_tell; [exact acsf_opened | vm_compute; split; discriminate].
Defined.

Lemma seek_boundary_witness :
  (exists s', seek 4 SEEK_SET acsf = (Ok 4, s')
              /\ _file_index s' = 1%nat /\ _file_pos s' = 0)
  /\ (exists s', seek 16 SEEK_SET acsf = (Ok 16, s')
                 /\ S (_file_index s') = 3%nat
                 /\ run (each read1 [1; -1; 5]) s' = Ok [[]; []; []]).
Proof.
  destruct (seek_boundary acsf acsf_opened) as [Hb He]. split.
  - apply (Hb 0%nat 1%nat); [simpl; lia | intros k Hk; lia | left; reflexivity].
  - destruct (He 16) as (s' & Hk & Hi & Hr); [vm_compute; discriminate|].
    exists s'. split; [exact Hk|]. split; [exact Hi|]. apply (Hr [1; -1; 5]).
Defined.

Lemma acsf_gap_opened : opened acsf_gap.
Proof.
  constructor; [reflexivity | discriminate | repeat constructor | reflexivity].
Qed.

(** C2, as stated, fails: with an empty file after the first one, seeking
    to the end of the first file (position 4, the boundary between files 0
    and 1) makes file 2 active, not file 1. *)
Lemma seek_boundary_skips_empty :
  let s' := exec (seek 4 SEEK_SET) acsf_gap in
  opened acsf_gap
  /\ table acsf_gap = [4; 0; 3]
  /\ run (seek 4 SEEK_SET) acsf_gap = Ok 4
  /\ _file_index s' = 2%nat
  /\ ~ (_file_index s' = 1%nat /\ _file_pos s' = 0).
Proof.
  split; [exact acsf_gap_opened|]. repeat split. intros [E _]. discriminate E.
Qed.

Lemma split_reads_witness :
  exists s0 chunks raw,
    seek 2 SEEK_SET acsf = (Ok 2, s0)
    /\ run (each read [3; 0; 6]) s0 = Ok chunks
    /\ run (read (total_length [3; 0; 6])) s0 = Ok (List.concat chunks)
    /\ List.concat chunks
       = take (total_length [3; 0; 6]) (drop 2 (content acsf))
    /\ run (each read1 [3; 0; 6]) s0 = Ok raw
    /\ List.concat raw = take (len (List.concat raw)) (List.concat chunks).
Proof.
  apply split_reads;
    [exact acsf_opened | lia | repeat constructor; lia | vm_compute; discriminate].
Defined.

(** C3, as stated, fails, in two ways.  From position 0 of the test stream
    (14 bytes), reached by [seek(0)], the split of 10 into [read1(5)],
    [read1(5)] returns 9 bytes ([test], then [ KURW]), which is neither
    what [read(10)] returns nor what [read1(10)] returns.  And on the
    stream [create] leaves over an empty file and [kek] (open, lengths as
    recorded, cursor 0, no seek yet), [read1(1)], [read1(1)] return nothing
    and then [k], [read(1)], [read(1)] return a zero byte and then [k], and
    [read(2)] returns two zero bytes, none of which are the bytes [ke] the
    stream holds at 0. *)
Lemma read1_split_falls_short :
  let s0 := exec (seek 0 SEEK_SET) acsf in
  let s1 := snd (create [BytesIO_of []; BytesIO_of b_kek] EmptyString) in
  opened acsf
  /\ 0 + total_length [5; 5] <= total_length (table acsf)
  /\ run (each read1 [5; 5]) s0 = Ok [b_test; list_byte_of_string " KURW"]
  /\ run (read 10) s0 = Ok (list_byte_of_string "test KURWA")
  /\ run (read1 10) s0 = Ok b_test
  /\ List.concat [b_test; list_byte_of_string " KURW"]
     <> list_byte_of_string "test KURWA"
  /\ List.concat [b_test; list_byte_of_string " KURW"] <> b_test
  /\ opened s1
  /\ _pos s1 = 0
  /\ 0 + total_length [1; 1] <= total_length (table s1)
  /\ take 2 (drop 0 (content s1)) = list_byte_of_string "ke"
  /\ run (each read1 [1; 1]) s1 = Ok [[]; list_byte_of_string "k"]
  /\ run (each read [1; 1]) s1 = Ok [[x00]; list_byte_of_string "k"]
  /\ run (read 2) s1 = Ok [x00; x00]
  /\ run (read1 2) s1 = Ok [].
Proof.
  split; [exact acsf_opened|].
  split; [vm_compute; discriminate|].
  do 3 (split; [reflexivity|]).
  do 2 (split; [discriminate|]).
  split.
  { constructor; [reflexivity | discriminate | repeat constructor | reflexivity]. }
  split; [reflexivity|].
  split; [vm_compute; discriminate|].
  repeat split; vm_compute; reflexivity.
Qed.

(** ** The test-suite, replayed on the model *)

Example test_len : run __len__ acsf = Ok 14.
Proof. reflexivity. Qed.

Example test_first_byte :
  run (a <- tell ;; b <- read1 1 ;; c <- tell ;; ret (a, b, c)) acsf
  = Ok (0, list_byte_of_string "t", 1).
Proof. reflexivity. Qed.

Example test_seek_middle_of_first :
  let s := exec (seek 2 SEEK_SET) acsf in
  run (seek 2 SEEK_SET) acsf = Ok 2
  /\ _file_index s = 0%nat /\ _file_pos s = 2
  /\ run (read1 (-1)) s = Ok (list_byte_of_string "st").
Proof. repeat split. Qed.

Example test_seek_first_byte_of_second :
  let s := exec (seek 4 SEEK_SET) acsf in
  _file_index s = 1%nat /\ _file_pos s = 0
  /\ run (read1 1) s = Ok (list_byte_of_string " ").
Proof. repeat split. Qed.

Example test_seek_after_last_byte :
  let s := exec (seek 14 SEEK_SET) acsf in
  run (seek 14 SEEK_SET) acsf = Ok 14
  /\ _file_index s = 2%nat /\ _file_pos s = 3 /\ run (read1 1) s = Ok [].
Proof. repeat split. Qed.

Example test_seek_in_void :
  let s := exec (seek 16 SEEK_SET) acsf in
  run (seek 16 SEEK_SET) acsf = Ok 16
  /\ _file_index s = 2%nat /\ _file_pos s = 5 /\ run (read1 1) s = Ok [].
Proof. repeat split. Qed.

Example test_one_read_per_file :
  run (seek 1 SEEK_SET ;; each read1 [-1; -1; -1]) acsf
  = Ok [list_byte_of_string "est"; b_kurwa; b_kek].
Proof. reflexivity. Qed.

Example test_readinto :
  let s := exec (seek 0 SEEK_SET) acsf in
  fst (readinto (repeat x00 10) s)
  = (Ok 10, list_byte_of_string "test KURWA")
  /\ fst (readinto (list_byte_of_string "test KURWA") (snd (readinto (repeat x00 10) s)))
     = (Ok 4, [x0a] ++ list_byte_of_string "kek KURWA")
  /\ fst (fst (readinto (repeat x00 16) s)) = Ok 14.
Proof. repeat split. Qed.

Example test_read_something :
  run (seek 3 SEEK_SET ;; a <- read 5 ;; b <- read (-1) ;; ret (a, b)) acsf
  = Ok (list_byte_of_string "t KUR", list_byte_of_string "WA" ++ [x0a] ++ b_kek).
Proof. reflexivity. Qed.

(** * Further properties of the class *)

(** ** Refusals, failures and what they leave behind *)

Section Refusals.

Context {F : Type} `{IOBase F}.

Local Abbreviation stream := (AsyncConcatenatedSeekableFile F).

(** In the model of [asyncio.gather] every file is called. *)
Lemma gather_files {A} (m : F -> result A * F) (fs : list F) :
  snd (gather m fs) = map (fun f => snd (m f)) fs.
Proof.
  induction fs as [|f fs IH]; [reflexivity|]. simpl.
  destruct (m f) as [r f']. destruct (gather m fs) as [rs fs'].
  simpl in *. now rewrite IH.
Qed.

Lemma gather_all_Ok {A} (m : F -> result A * F) (fs : list F) (l : list A) :
  Forall2 (fun f a => fst (m f) = Ok a) fs l -> fst (gather m fs) = Ok l.
Proof.
  induction 1 as [|f a fs l Ha _ IH]; [reflexivity|]. simpl.
  destruct (m f) as [r f']. destruct (gather m fs) as [rs fs'].
  simpl in *. now rewrite Ha, IH.
Qed.

Lemma gather_some_Raise {A} (m : F -> result A * F) (fs : list F) :
  Exists (fun f => raises (fst (m f))) fs -> raises (fst (gather m fs)).
Proof.
  induction 1 as [f fs Hf | f fs _ IH]; simpl;
    destruct (m f) as [r f']; destruct (gather m fs) as [rs fs']; simpl in *.
  - destruct r; [contradiction | exact I].
  - destruct r; [|exact I]. destruct rs; [contradiction | exact I].
Qed.

(** X1.  On a stream that is not closed, [seek] raises
    [io.UnsupportedOperation] when some file says it is not seekable,
    whatever the offset and the origin (even an invalid one), and leaves
    the object as it was. *)
Theorem seek_unsupported (s : stream) (offset whence : Z) :
  _closed s = false ->
  run seekable s = Ok false ->
  seek offset whence s = (Raise UnsupportedOperation, s).
Proof.
  intros Hc Hs. unfold seek, bind at 1, gets. rewrite Hc.
  unfold bind at 1. unfold run in Hs.
  pose proof (seekable_state s) as Es.
  destruct (seekable s) as [r s1]; simpl in *; subst. reflexivity.
Qed.

(** X2.  On a stream that is not closed, [read1] raises
    [io.UnsupportedOperation] when some file says it is not readable, and
    leaves the object as it was: no file is read. *)
Theorem read1_unsupported (s : stream) (amount : Z) :
  _closed s = false ->
  run readable s = Ok false ->
  read1 amount s = (Raise UnsupportedOperation, s).
Proof.
  intros Hc Hs. unfold read1, bind at 1, gets. rewrite Hc.
  unfold bind at 1. unfold run in Hs.
  pose proof (readable_state s) as Es.
  destruct (readable s) as [r s1]; simpl in *; subst. reflexivity.
Qed.

(** X3.  When the active file's own [read] raises, [read1] raises the same
    exception and the logical cursor, the active index and the cached
    offset are as before the call: nothing is counted as read. *)
Theorem read1_native_error (s : stream) (amount : Z) (f f' : F) (e : exn) :
  _closed s = false ->
  run readable s = Ok true ->
  nth_error (files s) (_file_index s) = Some f ->
  fread f amount = (Raise e, f') ->
  exists s', read1 amount s = (Raise e, s')
             /\ _pos s' = _pos s
             /\ _file_index s' = _file_index s
             /\ _file_pos s' = _file_pos s
             /\ files s' = store (_file_index s) f' (files s).
Proof.
  intros Hc Hr Hf He. unfold read1, bind at 1, gets at 1. rewrite Hc.
  unfold bind at 1. unfold run in Hr.
  pose proof (readable_state s) as Es.
  destruct (readable s) as [r s1]; simpl in *; subst. cbn [negb].
  unfold bind at 1, gets at 1. unfold bind at 1, gets at 1.
  unfold bind at 1, call_file. rewrite Hf, He.
  eexists. split; [reflexivity|]. repeat split.
Qed.

(** X4.  When [_flen] answers for every file but finds no length for one of
    them, [create] raises [ValueError]; the stream it leaves is still
    closed and not initialized, so [seek] and [read1] on it raise the
    closed-file error. *)
Theorem create_unknown_length (fs : list F) (name : string)
  (ls : list (option Z)) (offset whence amount : Z) :
  Forall2 (fun f l => flen f = Ok l) fs ls ->
  In None ls ->
  exists msg s,
    create fs name = (Raise (ValueError msg), s)
    /\ _closed s = true /\ __inited s = false
    /\ run (seek offset whence) s = Raise (ValueError closed_msg)
    /\ run (read1 amount) s = Raise (ValueError closed_msg).
Proof.
  intros Hl Hn.
  assert (Hu : has_unknown ls = true).
  { unfold has_unknown. apply existsb_exists. exists None. now split. }
  assert (Hg : fst (gather (query flen) fs) = Ok ls).
  { apply gather_all_Ok. unfold query. simpl. exact Hl. }
  eexists. eexists. split.
  - unfold create, __aenter__, __init__. unfold bind at 1, gets at 1; simpl.
    unfold bind at 1. rewrite call_all_query; simpl. rewrite Hg.
    unfold bind, modify, ret, raise; simpl. rewrite Hu. reflexivity.
  - repeat split.
Qed.

(** X5.  A stream that was created and then closed is not opened again by
    entering it: [__aenter__] returns and changes nothing, the stream
    stays closed and [seek] and [read1] keep raising the closed-file
    error. *)
Theorem closed_not_reentered (fs : list F) (name : string) (s s' : stream)
  (offset whence amount : Z) :
  create fs name = (Ok tt, s) ->
  close s = (Ok tt, s') ->
  __aenter__ s' = (Ok tt, s')
  /\ _closed s' = true
  /\ run (seek offset whence) s' = Raise (ValueError closed_msg)
  /\ run (read1 amount) s' = Raise (ValueError closed_msg).
Proof.
  intros Hc Hk. apply create_Ok in Hc. destruct Hc as (zs & _ & ->).
  unfold close, bind, modify, _call_on_all_files in Hk. cbn [files] in Hk.
  destruct (gather fclose fs) as [[u|e] fs']; [|discriminate].
  inversion Hk; subst. repeat split.
Qed.

(** X6.  When the [close] of every file returns, [close] returns, every
    file is left as its own [close] leaves it and the stream is marked
    closed.  When the [close] of some file raises, [close] raises and the
    closed flag is left as it was: the stream is not marked closed. *)
Theorem close_all (s : stream) :
  (Forall (fun f => fst (fclose f) = Ok tt) (files s) ->
   run close s = Ok tt
   /\ _closed (exec close s) = true
   /\ files (exec close s) = map (fun f => snd (fclose f)) (files s))
  /\ (Exists (fun f => raises (fst (fclose f))) (files s) ->
      raises (run close s) /\ _closed (exec close s) = _closed s).
Proof.
  unfold exec, run, close, bind, modify, _call_on_all_files.
  pose proof (gather_files fclose (files s)) as Hf.
  split.
  - intros Ha.
    assert (Hg : fst (gather fclose (files s)) = Ok (map (fun _ => tt) (files s))).
    { apply gather_all_Ok. clear Hf. induction Ha; constructor; auto. }
    destruct (gather fclose (files s)) as [r fs']; simpl in *; subst.
    repeat split.
  - intros He. apply (gather_some_Raise fclose) in He.
    destruct (gather fclose (files s)) as [[u|e] fs']; simpl in *;
      [contradiction|]. split; [exact I | reflexivity].
Qed.

End Refusals.

Lemma seek_unsupported_witness :
  seek 0 7 (stub_stream (stub (Some 0) true false false))
  = (Raise UnsupportedOperation, stub_stream (stub (Some 0) true false false)).
Proof. apply seek_unsupported; reflexivity. Defined.

Lemma read1_unsupported_witness :
  read1 1 (stub_stream (stub (Some 0) false true false))
  = (Raise UnsupportedOperation, stub_stream (stub (Some 0) false true false)).
Proof. apply read1_unsupported; reflexivity. Defined.

Lemma read1_native_error_witness :
  let s := stub_stream (stub (Some 0) true true true) in
  exists s', read1 1 s = (Raise (ValueError "broken"), s')
             /\ _pos s' = _pos s
             /\ _file_index s' = _file_index s
             /\ _file_pos s' = _file_pos s
             /\ files s' = store (_file_index s) (stub (Some 0) true true true) (files s).
Proof.
  apply (@read1_native_error _ _ (stub_stream (stub (Some 0) true true true)) 1
           (stub (Some 0) true true true) (stub (Some 0) true true true));
    reflexivity.
Defined.

Lemma create_unknown_length_witness :
  exists msg s,
    create [stub (Some 3) true true false; stub None true true false] EmptyString
    = (Raise (ValueError msg), s)
    /\ _closed s = true /\ __inited s = false
    /\ run (seek 0 SEEK_SET) s = Raise (ValueError closed_msg)
    /\ run (read1 1) s = Raise (ValueError closed_msg).
Proof.
  apply (@create_unknown_length _ _ _ _ [Some 3; None]).
  - repeat constructor.
  - right. left. reflexivity.
Defined.

Lemma closed_not_reentered_witness :
  __aenter__ acsf_closed = (Ok tt, acsf_closed)
  /\ _closed acsf_closed = true
  /\ run (seek 0 SEEK_SET) acsf_closed = Raise (ValueError closed_msg)
  /\ run (read1 1) acsf_closed = Raise (ValueError closed_msg).
Proof.
  apply (@closed_not_reentered _ _ in_f EmptyString acsf); reflexivity.
Defined.

Lemma close_all_witness :
  let s := mkACSF true 0 0 0 false EmptyString
             [stub (Some 0) true true false; stub (Some 0) true true true;
              stub (Some 0) true true false]
             (Some [Some 0; Some 0; Some 0]) in
  (run close acsf = Ok tt
   /\ _closed (exec close acsf) = true
   /\ files (exec close acsf) = map (fun f => snd (fclose f)) (files acsf))
  /\ (raises (run close s) /\ _closed (exec close s) = _closed s).
Proof.
  split.
  - apply close_all. repeat constructor.
  - apply close_all. right. left. exact I.
Defined.

(** ** What [seek] and [read1] never touch *)

Section Untouched.

Context {F : Type} `{IOBase F}.

Local Abbreviation stream := (AsyncConcatenatedSeekableFile F).

Lemma fixed_bind {A B} (m : M F A) (k : A -> M F B) :
  keeps_fixed m -> (forall a, keeps_fixed (k a)) -> keeps_fixed (bind m k).
Proof.
  intros Hm Hk s. unfold bind. specialize (Hm s).
  destruct (m s) as [[a|e] s1]; simpl in *; [|assumption].
  now rewrite Hk.
Qed.

Lemma fixed_ret {A} (a : A) : keeps_fixed (@ret F A a).
Proof. now intros s. Qed.

Lemma fixed_raise {A} (e : exn) : keeps_fixed (@raise F A e).
Proof. now intros s. Qed.

Lemma fixed_gets {A} (f : stream -> A) : keeps_fixed (gets f).
Proof. now intros s. Qed.

Lemma fixed_eval {A} (f : stream -> result A) : keeps_fixed (eval f).
Proof. now intros s. Qed.

Lemma fixed_modify (g : stream -> stream) :
  (forall s, fixed (g s) = fixed s) -> keeps_fixed (modify g).
Proof. intros Hg s. apply Hg. Qed.

Lemma fixed_call_file {A} (i : nat) (m : F -> result A * F) :
  keeps_fixed (call_file i m).
Proof.
  intros s. unfold call_file. destruct (nth_error (files s) i); [|reflexivity].
  destruct (m f). unfold fixed. simpl. now rewrite store_length.
Qed.

Lemma fixed_call_all {A} (m : F -> result A * F) :
  keeps_fixed (_call_on_all_files m).
Proof.
  intros s. unfold _call_on_all_files.
  pose proof (gather_files m (files s)) as E.
  destruct (gather m (files s)) as [r fs]. simpl in *. subst.
  unfold fixed. simpl. now rewrite length_map.
Qed.

Lemma fixed_find_file (pos : Z) :
  keeps_fixed (fun s : stream => find_file s pos).
Proof. intros s. now rewrite find_file_frame. Qed.

Create HintDb fixed.

#[local] Hint Resolve fixed_ret fixed_raise fixed_gets fixed_eval
  fixed_call_file fixed_call_all fixed_find_file : fixed.

Ltac fixed :=
  repeat first
    [ apply fixed_bind; [|intros ?]
    | apply fixed_modify; intros ?; reflexivity
    | match goal with |- keeps_fixed (if ?b then _ else _) => destruct b end
    | solve [auto with fixed] ].

Lemma fixed_recalc_file : keeps_fixed (@_recalc_file F _).
Proof. unfold _recalc_file. fixed. Qed.

Lemma fixed_readable : keeps_fixed (@readable F _).
Proof. unfold readable. fixed. Qed.

Lemma fixed_seekable : keeps_fixed (@seekable F _).
Proof. unfold seekable. fixed. Qed.

#[local] Hint Resolve fixed_recalc_file fixed_readable fixed_seekable : fixed.

Lemma fixed_read1 (amount : Z) : keeps_fixed (read1 amount).
Proof. unfold read1, _file_length. fixed. Qed.

Lemma fixed_seek (offset whence : Z) : keeps_fixed (seek offset whence).
Proof. unfold seek, __len__. fixed. Qed.

(** X7.  No sequence of [seek] and [read1] calls, returning or raising,
    closes or reopens the stream, changes its name, its initialization
    flag or its length table, or adds or drops a file. *)
Theorem seek_read_fixed (os : list op) (s : stream) :
  fixed (steps os s) = fixed s.
Proof.
  unfold steps. revert s. induction os as [|o os IH]; intros s; [reflexivity|].
  simpl. rewrite IH.
  destruct o; [apply fixed_seek | apply fixed_read1].
Qed.

End Untouched.

(** ** The position mapping *)

Section WalkAgain.

Lemma locate_sum (ls : list Z) (pos : Z) :
  pos = total_length (firstn (fst (locate ls 0 pos)) ls) + snd (locate ls 0 pos).
Proof.
  revert pos. induction ls as [|l ls IH]; intros pos; [simpl; lia|].
  destruct ls as [|l' ls']; [simpl; lia|].
  rewrite locate_cons. destruct (l <=? pos); [|simpl; lia].
  cbn [fst snd firstn]. specialize (IH (pos - l)).
  change (total_length (l :: firstn (fst (locate (l' :: ls') 0 (pos - l))) (l' :: ls')))
    with (l + total_length (firstn (fst (locate (l' :: ls') 0 (pos - l))) (l' :: ls'))).
  lia.
Qed.

Lemma locate_stop (ls : list Z) (pos : Z) :
  ls <> [] ->
  snd (locate ls 0 pos) < nth (fst (locate ls 0 pos)) ls 0
  \/ S (fst (locate ls 0 pos)) = List.length ls.
Proof.
  revert pos. induction ls as [|l ls IH]; intros pos Hne; [congruence|].
  destruct ls as [|l' ls']; [right; reflexivity|].
  rewrite locate_cons. destruct (l <=? pos) eqn:E.
  - cbn [fst snd nth]. assert (Hne' : l' :: ls' <> []) by congruence.
    destruct (IH (pos - l) Hne') as [Hl|Hl].
    + left. exact Hl.
    + right. simpl in *. lia.
  - apply Z.leb_gt in E. left. simpl. exact E.
Qed.

(** An index and an offset that fit the mapping are the ones the walk
    finds. *)
Lemma locate_mapped (ls : list Z) (i : nat) (off : Z) :
  Forall (fun l => 0 <= l) ls ->
  (i < List.length ls)%nat ->
  0 <= off ->
  off < nth i ls 0 \/ S i = List.length ls ->
  locate ls 0 (total_length (firstn i ls) + off) = (i, off).
Proof.
  revert i. induction ls as [|l ls IH]; intros i Hls Hi Hoff Hin;
    [simpl in Hi; lia|].
  inversion Hls as [|? ? Hl Hls']; subst.
  destruct ls as [|l' ls'].
  - assert (i = 0%nat) by (simpl in Hi; lia). subst. simpl; f_equal; try lia.
  - rewrite locate_cons. destruct i as [|i].
    + cbn [firstn total_length fold_right].
      destruct Hin as [Hin|Hin]; [|simpl in Hin; lia]. simpl in Hin.
      replace (l <=? 0 + off) with false by lia. f_equal; try lia.
    + change (total_length (firstn (S i) (l :: l' :: ls')))
        with (l + total_length (firstn i (l' :: ls'))).
      pose proof (total_length_nonneg (Forall_firstn i Hls')) as Ht.
      replace (l <=? l + total_length (firstn i (l' :: ls')) + off)
        with true by lia.
      replace (l + total_length (firstn i (l' :: ls')) + off - l)
        with (total_length (firstn i (l' :: ls')) + off) by lia.
      rewrite (IH i Hls'); [reflexivity | simpl in *; lia | exact Hoff |].
      destruct Hin as [Hin|Hin]; [left; exact Hin | right; simpl in *; lia].
Qed.

End WalkAgain.

Section Mapped.

Unset Implicit Arguments.

Context {F : Type} `{Faithful F}.

Local Abbreviation stream := (AsyncConcatenatedSeekableFile F).

Lemma table_length (s : stream) :
  List.length (table s) = List.length (files s).
Proof. unfold table. apply length_map. Qed.

Lemma table_nonneg (s : stream) : Forall (fun l => 0 <= l) (table s).
Proof. rewrite table_bufs. apply lens_nonneg. Qed.

Lemma synced_mapped (bufs : list bytes) (p : Z) (s : stream) :
  synced bufs p s -> 0 <= p -> mapped s.
Proof.
  intros [Ho Hb Hpos Hat Hcur] Hp.
  rewrite <- Hb, <- table_bufs in Hat.
  assert (Hne : table s <> []).
  { intros E. apply (opened_some Ho). apply length_zero_iff_nil.
    rewrite <- table_length, E. reflexivity. }
  pose proof (locate_index p Hne) as Hi.
  pose proof (locate_sum (table s) p) as Hsum.
  pose proof (locate_offset (table s) Hp) as Hoff.
  pose proof (@locate_stop (table s) p Hne) as Hstop.
  rewrite Hat in Hi, Hsum, Hoff, Hstop. cbn [fst snd] in *.
  rewrite table_length in Hi, Hstop.
  constructor; try assumption. now rewrite Hpos.
Qed.

Lemma mapped_synced (s : stream) :
  opened s -> mapped s -> synced (map fdata (files s)) (_pos s) s.
Proof.
  intros Ho [Hi Hpos Hoff Hin Hcur].
  constructor; try assumption; try reflexivity.
  rewrite <- table_bufs, Hpos.
  apply locate_mapped;
    [apply table_nonneg | now rewrite table_length | exact Hoff |].
  now rewrite table_length.
Qed.

Lemma mapped_pos_nonneg (s : stream) : mapped s -> 0 <= _pos s.
Proof.
  intros [Hi Hpos Hoff Hin Hcur]. rewrite Hpos.
  pose proof (total_length_nonneg
                (Forall_firstn (_file_index s) (table_nonneg s))).
  lia.
Qed.

End Mapped.

Section Bound.

Context {F : Type} `{IOBase F}.

Local Abbreviation stream := (AsyncConcatenatedSeekableFile F).

(** The cut in [read1], for a known declared length. *)
Lemma read1_cut (s s' : stream) (amount L : Z) (val : bytes) :
  read1 amount s = (Ok val, s') ->
  length_at (_file_index s) s = Ok L ->
  len val <= Z.max (L - _file_pos s) 0.
Proof.
  unfold read1. unfold bind at 1, gets at 1.
  destruct (_closed s); [discriminate|].
  unfold bind at 1. pose proof (readable_state s) as Er.
  destruct (readable s) as [[r|e] s0]; simpl in Er; subst; [|discriminate].
  destruct r; simpl; [|discriminate].
  unfold bind at 1, gets at 1. unfold bind at 1, gets at 1.
  intros E HL. apply bind_Ok_inv in E. destruct E as (v & s1 & Hv & E).
  assert (Hs1 : length_at (_file_index s1) s1 = Ok L).
  { unfold call_file in Hv. destruct (nth_error (files s) (_file_index s));
      [|discriminate]. destruct (fread f amount). inversion Hv; subst.
    exact HL. }
  apply bind_Ok_inv in E. destruct E as (L' & s2 & HL' & E).
  unfold _file_length, eval in HL'. rewrite Hs1 in HL'.
  inversion HL'; subst L' s2; clear HL'.
  assert (Hval : val = if Z.max (L - _file_pos s) 0 <? len v
                       then take (Z.max (L - _file_pos s) 0) v else v).
  { repeat (apply bind_Ok_inv in E; destruct E as (? & ? & _ & E)).
    unfold ret in E. now inversion E. }
  subst val. destruct (Z.max (L - _file_pos s) 0 <? len v) eqn:Ec.
  - unfold len, take. rewrite length_firstn. lia.
  - lia.
Qed.

End Bound.

Section Seeking.

Unset Implicit Arguments.

Context {F : Type} `{Faithful F}.

Local Abbreviation stream := (AsyncConcatenatedSeekableFile F).

Lemma synced_content (bufs : list bytes) (p : Z) (s : stream) :
  synced bufs p s -> map fdata (files s) = bufs.
Proof. intros Hs. exact (synced_bufs Hs). Qed.

(** X8.  On an open stream over files that keep the contract, [seek] from
    any of the three origins (the start, the cursor, the total length) to a
    position that is not negative returns that position; a [tell] right
    after returns it too, the position mapping holds and the files hold the
    same bytes. *)
Theorem seek_from_origin (s : stream) (offset whence : Z) :
  opened s ->
  whence = SEEK_SET \/ whence = SEEK_CUR \/ whence = SEEK_END ->
  0 <= origin whence s + offset ->
  exists s',
    seek offset whence s = (Ok (origin whence s + offset), s')
    /\ tell s' = (Ok (origin whence s + offset), s')
    /\ opened s' /\ mapped s'
    /\ map fdata (files s') = map fdata (files s).
Proof.
  intros Ho Hw Hp.
  assert (Hl : __len__ s = (Ok (total_length (table s)), s)).
  { apply len_known. rewrite table_bufs. apply opened_table, Ho. }
  destruct (recalc_synced (set_pos (origin whence s + offset) s))
    as (s' & Hr & Hs).
  { destruct Ho as [? ? ? ?]. constructor; assumption. }
  { exact Hp. }
  cbn [set_pos files _pos] in Hs.
  exists s'. split; [|split; [|split; [|split]]].
  - unfold seek. unfold bind at 1, gets at 1. rewrite (opened_flag Ho).
    unfold bind at 1. rewrite (seekable_opened s Ho). cbn [negb].
    unfold origin in *.
    destruct Hw as [-> | [-> | ->]]; cbn [Z.eqb SEEK_SET SEEK_CUR SEEK_END Pos.eqb] in *.
    + unfold bind at 1, modify at 1. unfold bind at 1, modify at 1.
      unfold bind at 1. cbn [set_pos _pos].
      replace (set_pos (0 + offset) (set_pos 0 s)) with (set_pos (0 + offset) s)
        by (now destruct s).
      rewrite Hr. unfold gets. now rewrite (synced_pos Hs).
    + unfold bind at 1, ret at 1. unfold bind at 1, modify at 1.
      unfold bind at 1. rewrite Hr. unfold gets. now rewrite (synced_pos Hs).
    + unfold bind at 1. unfold bind at 1. rewrite Hl.
      unfold modify at 1. unfold bind at 1, modify at 1.
      unfold bind at 1. cbn [set_pos _pos].
      replace (set_pos (total_length (table s) + offset)
                 (set_pos (total_length (table s)) s))
        with (set_pos (total_length (table s) + offset) s) by (now destruct s).
      rewrite Hr. unfold gets. now rewrite (synced_pos Hs).
  - unfold tell, gets. now rewrite (synced_pos Hs).
  - exact (synced_opened Hs).
  - exact (synced_mapped _ _ _ Hs Hp).
  - exact (synced_bufs Hs).
Qed.

(** X9.  On an open stream over files that keep the contract, while the
    position mapping holds, [read1] returns; what it returns are the next
    bytes of the logical stream, no more than a non-negative amount asked
    for; the cursor has moved past them, and the stream is open with the
    position mapping and the same bytes again. *)
Theorem read1_keeps_mapping (s : stream) (amount : Z) :
  opened s ->
  mapped s ->
  exists chunk s',
    read1 amount s = (Ok chunk, s')
    /\ chunk = take (len chunk) (drop (_pos s) (content s))
    /\ (0 <= amount -> len chunk <= amount)
    /\ _pos s' = _pos s + len chunk
    /\ opened s' /\ mapped s'
    /\ map fdata (files s') = map fdata (files s).
Proof.
  intros Ho Hm. pose proof (mapped_pos_nonneg s Hm) as Hp.
  destruct (read1_synced _ _ amount s (mapped_synced s Ho Hm) Hp)
    as (chunk & s' & Hr & Hs & Hc & Hle & _ & _).
  exists chunk, s'. pose proof (len_nonneg chunk).
  split; [exact Hr|]. split; [exact Hc|]. split; [exact Hle|].
  split; [exact (synced_pos Hs)|]. split; [exact (synced_opened Hs)|].
  split; [apply (synced_mapped _ _ _ Hs); lia | exact (synced_bufs Hs)].
Qed.

(** X10.  Under the same conditions, what [read1] returns comes from the
    active file alone: it is a run of that file's bytes starting at the
    active offset, so one call never reads across two files. *)
Theorem read1_single_file (s s' : stream) (amount : Z) (chunk : bytes) :
  opened s ->
  mapped s ->
  read1 amount s = (Ok chunk, s') ->
  exists f, nth_error (files s) (_file_index s) = Some f
            /\ chunk = take (len chunk) (drop (_file_pos s) (fdata f))
            /\ _file_pos s + len chunk <= Z.max (len (fdata f)) (_file_pos s).
Proof.
  intros Ho Hm Hr. pose proof (mapped_pos_nonneg s Hm) as Hp.
  pose proof (mapped_synced s Ho Hm) as Hs.
  destruct (read1_synced _ _ amount s Hs Hp)
    as (chunk' & s'' & Hr' & _ & Hc & _).
  rewrite Hr in Hr'. inversion Hr'; subst chunk' s''. clear Hr'.
  destruct (mapped_cursor Hm) as (f & Ef & Hcur).
  assert (Hi : (_file_index s < List.length (files s))%nat).
  { apply nth_error_Some. now rewrite Ef. }
  assert (HL : length_at (_file_index s) s = Ok (len (fdata f))).
  { rewrite length_at_known with (ls := map len (map fdata (files s)));
      [| apply (opened_table s Ho) | rewrite !length_map; exact Hi ].
    rewrite nth_len. erewrite nth_indep by (rewrite length_map; exact Hi).
    rewrite (map_nth fdata (files s) f). do 3 f_equal. now apply nth_error_nth. }
  pose proof (@read1_cut _ _ s s' amount _ chunk Hr HL) as Hcut.
  pose proof (mapped_offset Hm) as Hoff.
  assert (Hne : map fdata (files s) <> []).
  { intros E. apply (opened_some Ho). now apply map_eq_nil in E. }
  exists f. split; [exact Ef|].
  assert (Hbuf : nth (_file_index s) (map fdata (files s)) [] = fdata f).
  { erewrite nth_indep by (rewrite length_map; exact Hi).
    rewrite (map_nth fdata (files s) f). f_equal. now apply nth_error_nth. }
  split; [|lia].
  rewrite Hc at 1. rewrite (locate_content Hne Hp), (synced_at Hs).
  cbn [fst snd]. rewrite Hbuf. apply take_app_l.
  rewrite len_drop by exact Hoff. lia.
Qed.

End Seeking.

Lemma seek_from_origin_witness :
  let s := exec (seek 6 SEEK_SET) acsf in
  exists s',
    seek (-5) SEEK_CUR s = (Ok (origin SEEK_CUR s + -5), s')
    /\ tell s' = (Ok (origin SEEK_CUR s + -5), s')
    /\ opened s' /\ mapped s'
    /\ map fdata (files s') = map fdata (files s).
Proof.
  apply seek_from_origin.
  - constructor; [reflexivity | discriminate | repeat constructor | reflexivity].
  - right. left. reflexivity.
  - vm_compute. discriminate.
Defined.

Lemma acsf_at_6_opened : opened (exec (seek 6 SEEK_SET) acsf).
Proof.
  constructor; [reflexivity | discriminate | repeat constructor | reflexivity].
Defined.

Lemma acsf_at_6_mapped : mapped (exec (seek 6 SEEK_SET) acsf).
Proof.
  constructor.
  - vm_compute. lia.
  - vm_compute. reflexivity.
  - vm_compute. discriminate.
  - left. vm_compute. reflexivity.
  - eexists. split; vm_compute; reflexivity.
Defined.

Lemma read1_keeps_mapping_witness :
  let s := exec (seek 6 SEEK_SET) acsf in
  exists chunk s',
    read1 3 s = (Ok chunk, s')
    /\ chunk = take (len chunk) (drop (_pos s) (content s))
    /\ (0 <= 3 -> len chunk <= 3)
    /\ _pos s' = _pos s + len chunk
    /\ opened s' /\ mapped s'
    /\ map fdata (files s') = map fdata (files s).
Proof.
  apply read1_keeps_mapping; [exact acsf_at_6_opened | exact acsf_at_6_mapped].
Defined.

Lemma read1_single_file_witness :
  let s := exec (seek 6 SEEK_SET) acsf in
  exists f, nth_error (files s) (_file_index s) = Some f
            /\ b_kurwa_tail = take (len b_kurwa_tail) (drop (_file_pos s) (fdata f))
            /\ _file_pos s + len b_kurwa_tail <= Z.max (len (fdata f)) (_file_pos s).
Proof.
  apply (@read1_single_file _ _ _ (exec (seek 6 SEEK_SET) acsf)
           (exec (read1 (-1)) (exec (seek 6 SEEK_SET) acsf)) (-1));
    [exact acsf_at_6_opened | exact acsf_at_6_mapped | vm_compute; reflexivity].
Defined.

(** ** Reading up to the end *)

Section ReadingToTheEnd.

Unset Implicit Arguments.

Context {F : Type} `{Faithful F}.

Local Abbreviation stream := (AsyncConcatenatedSeekableFile F).

Lemma len_concat (bufs : list bytes) :
  len (List.concat bufs) = total_length (map len bufs).
Proof.
  induction bufs as [|b bufs IH]; [reflexivity|].
  cbn [List.concat map]. rewrite len_app, IH. reflexivity.
Qed.

Lemma drop_app_len {A} (l l' : list A) : drop (len l) (l ++ l') = l'.
Proof.
  rewrite drop_app_r by lia. rewrite Z.sub_diag. reflexivity.
Qed.

(** The loop of [readinto] on a synced stream, whatever is left: it stops
    when the buffer is full or the stream is at its end, having written
    the bytes it read over the start of the buffer. *)
Lemma readinto_loop_eof (bufs : list bytes) (n : nat) :
  forall (buf_len : Z) (buffer : bytes) (data_len p : Z) (s : stream),
    n = Z.to_nat (buf_len - data_len) ->
    synced bufs p s ->
    0 <= p ->
    0 <= data_len <= buf_len ->
    len buffer = buf_len ->
    let k := Z.min (buf_len - data_len)
                   (Z.max 0 (total_length (map len bufs) - p)) in
    exists s',
      readinto_loop buf_len buffer data_len s
      = (Ok (data_len + k),
         take data_len buffer
         ++ take k (drop p (List.concat bufs))
         ++ drop (data_len + k) buffer, s')
      /\ synced bufs (p + k) s'.
Proof.
  induction n as [n IH] using lt_wf_ind.
  intros buf_len buffer data_len p s En Hs Hp Hd Hlen k.
  rewrite readinto_loop_step.
  destruct (data_len <? buf_len) eqn:Elt.
  - apply Z.ltb_lt in Elt.
    destruct (read1_synced bufs p (buf_len - data_len) s Hs Hp)
      as (chunk & s1 & Hr & Hs1 & Hchunk & Hle & Hpos & Hend).
    assert (H2 : len chunk <= buf_len - data_len) by (apply Hle; lia).
    rewrite Hr.
    destruct (Z.le_gt_cases (total_length (map len bufs)) p) as [Hge|Hlt].
    + rewrite (Hend Hge) in *. assert (k = 0) by (unfold k; lia).
      exists s1. change (len (@nil byte)) with 0 in Hs1.
      replace (p + k) with (p + 0) by lia. split; [|exact Hs1].
      replace (data_len + k) with data_len by lia.
      replace k with 0 by lia. rewrite take_0. cbn [app].
      unfold take, drop. now rewrite firstn_skipn.
    + assert (H1 : 0 < len chunk) by (apply Hpos; lia).
      assert (H3 : len chunk <= total_length (map len bufs) - p).
      { rewrite Hchunk, len_take, len_drop, len_concat by lia. lia. }
      destruct chunk as [|b data] eqn:Ec; [cbn in H1; lia|].
      rewrite <- Ec in *. clear Ec.
      assert (Hl' : len (slice_assign buffer data_len chunk) = buf_len).
      { unfold slice_assign. rewrite !len_app, len_take, len_drop by lia. lia. }
      destruct (IH (Z.to_nat (buf_len - (data_len + len chunk))) ltac:(lia)
                  buf_len (slice_assign buffer data_len chunk)
                  (data_len + len chunk) (p + len chunk) s1 eq_refl Hs1
                  ltac:(lia) ltac:(lia) Hl')
        as (s' & Hloop & Hs').
      set (k' := Z.min (buf_len - (data_len + len chunk))
                   (Z.max 0 (total_length (map len bufs) - (p + len chunk)))) in *.
      assert (Hk : k = len chunk + k') by (unfold k, k'; lia).
      assert (Hk' : 0 <= k') by (unfold k'; lia).
      exists s'. split.
      * rewrite Hloop. rewrite Hk. f_equal. f_equal; [f_equal; lia|].
        assert (Ha : len (take data_len buffer ++ chunk) = data_len + len chunk)
          by (rewrite len_app, len_take by lia; lia).
        assert (T1 : take (data_len + len chunk)
                       (slice_assign buffer data_len chunk)
                     = take data_len buffer ++ chunk).
        { unfold slice_assign. rewrite app_assoc.
          rewrite take_app_l by lia. apply take_all. lia. }
        assert (T2 : drop (data_len + len chunk + k')
                       (slice_assign buffer data_len chunk)
                     = drop (data_len + (len chunk + k')) buffer).
        { unfold slice_assign. rewrite app_assoc.
          replace (data_len + len chunk + k')
            with (len (take data_len buffer ++ chunk) + k') by lia.
          rewrite <- drop_drop by (try apply len_nonneg; lia).
          rewrite drop_app_len. rewrite drop_drop by lia. f_equal. lia. }
        assert (T3 : take (len chunk + k') (drop p (List.concat bufs))
                     = chunk ++ take k' (drop (p + len chunk) (List.concat bufs))).
        { rewrite take_app_drop by lia. rewrite <- Hchunk.
          now rewrite drop_drop by lia. }
        rewrite T1, T2, T3. now rewrite <- !app_assoc.
      * replace (p + k) with (p + len chunk + k') by lia. exact Hs'.
  - apply Z.ltb_ge in Elt. assert (data_len = buf_len) by lia. subst data_len.
    assert (k = 0) by (unfold k; lia).
    exists s. replace (p + k) with (p + 0) by lia.
    rewrite Z.add_0_r. split; [|exact Hs].
    replace (buf_len + k) with buf_len by lia. replace k with 0 by lia.
    rewrite take_0. cbn [app]. unfold take, drop. now rewrite firstn_skipn.
Qed.

End ReadingToTheEnd.

Section ReadingAll.

Unset Implicit Arguments.

Context {F : Type} `{Faithful F}.

Local Abbreviation stream := (AsyncConcatenatedSeekableFile F).

(** X11.  On an open stream over files that keep the contract, while the
    position mapping holds, [readinto] returns the smaller of the buffer's
    length and the number of bytes left before the end of the stream (zero
    at or past the end); it has written that many bytes of the stream, from
    the cursor on, over the start of the buffer and left the rest of the
    buffer alone; the cursor has moved past them. *)
Theorem readinto_fills (s : stream) (buffer : bytes) :
  opened s ->
  mapped s ->
  exists s',
    readinto buffer s
    = (Ok (Z.min (len buffer) (Z.max 0 (total_length (table s) - _pos s))),
       take (Z.min (len buffer) (Z.max 0 (total_length (table s) - _pos s)))
            (drop (_pos s) (content s))
       ++ drop (Z.min (len buffer) (Z.max 0 (total_length (table s) - _pos s)))
               buffer, s')
    /\ _pos s' = _pos s
                 + Z.min (len buffer) (Z.max 0 (total_length (table s) - _pos s))
    /\ opened s' /\ mapped s'.
Proof.
  intros Ho Hm. pose proof (mapped_pos_nonneg s Hm) as Hp.
  pose proof (len_nonneg buffer) as Hb.
  destruct (readinto_loop_eof _ _ (len buffer) buffer 0 (_pos s) s eq_refl
              (mapped_synced s Ho Hm) Hp ltac:(lia) eq_refl)
    as (s' & Hloop & Hs').
  rewrite Z.sub_0_r, <- table_bufs in Hloop, Hs'.
  exists s'. unfold readinto, content. rewrite Hloop. cbn [Z.add].
  rewrite take_0. cbn [app].
  split; [reflexivity|]. split; [exact (synced_pos Hs')|].
  split; [exact (synced_opened Hs')|]. apply (synced_mapped _ _ _ Hs'). lia.
Qed.

(** [read] for any amount, with what it keeps. *)
Lemma read_any (s : stream) (amount : Z) :
  opened s ->
  mapped s ->
  _pos s <= total_length (table s) ->
  exists s',
    read amount s
    = (Ok (take (if (amount <? 0) || (total_length (table s) - _pos s <? amount)
                 then total_length (table s) - _pos s else amount)
                (drop (_pos s) (content s))), s')
    /\ (amount < 0 ->
        run (read amount) s = Ok (drop (_pos s) (content s)))
    /\ _pos s' = _pos s
                 + (if (amount <? 0) || (total_length (table s) - _pos s <? amount)
                    then total_length (table s) - _pos s else amount)
    /\ opened s' /\ mapped s'
    /\ map fdata (files s') = map fdata (files s).
Proof.
  intros Ho Hm Hend. pose proof (mapped_pos_nonneg s Hm) as Hp.
  set (total := total_length (table s)) in *.
  set (n := if (amount <? 0) || (total - _pos s <? amount)
            then total - _pos s else amount).
  assert (Hn : 0 <= n <= total - _pos s).
  { unfold n. destruct (amount <? 0) eqn:E1;
      destruct (total - _pos s <? amount) eqn:E2; cbn [orb]; lia. }
  assert (Hl : __len__ s = (Ok total, s)).
  { apply len_known. unfold total. rewrite table_bufs. apply opened_table, Ho. }
  destruct (readinto_loop_eof _ _ n (repeat x00 (Z.to_nat n)) 0 (_pos s) s
              eq_refl (mapped_synced s Ho Hm) Hp ltac:(lia)
              (len_repeat x00 n ltac:(lia)))
    as (s' & Hloop & Hs').
  rewrite Z.sub_0_r, <- table_bufs in Hloop, Hs'. fold total in Hloop, Hs'.
  replace (Z.min n (Z.max 0 (total - _pos s))) with n in Hloop, Hs' by lia.
  cbn [Z.add] in Hloop. rewrite take_0 in Hloop. cbn [app] in Hloop.
  rewrite (@drop_all _ n (repeat x00 (Z.to_nat n))) in Hloop
    by (rewrite len_repeat; lia).
  rewrite app_nil_r in Hloop.
  assert (Hread : read amount s
                  = (Ok (take n (drop (_pos s) (content s))), s')).
  { unfold read. unfold bind at 1.
    assert (Hamt :
      (whole <- (if amount <? 0 then ret true
                 else n0 <- __len__ ;; p <- gets (@_pos F) ;;
                      ret (n0 - p <? amount)) ;;
       (if whole : bool
        then n0 <- __len__ ;; p <- gets (@_pos F) ;; ret (n0 - p)
        else ret amount)) s = (Ok n, s)).
    { unfold n. destruct (amount <? 0) eqn:E1; cbn [orb].
      - unfold bind, ret, gets. rewrite Hl. reflexivity.
      - unfold bind, ret, gets. rewrite Hl.
        destruct (total - _pos s <? amount); [rewrite Hl|]; reflexivity. }
    unfold bind at 1 in Hamt.
    destruct ((if amount <? 0 then ret true
               else n0 <- __len__ ;; p <- gets (@_pos F) ;;
                    ret (n0 - p <? amount)) s) as [[w|e] s0];
      [|discriminate].
    unfold bind at 1. rewrite Hamt.
    unfold bind at 1, eval, bytearray. replace (n <? 0) with false by lia.
    unfold readinto. rewrite len_repeat by lia. unfold content.
    rewrite Hloop. reflexivity. }
  exists s'. split; [exact Hread|]. split; [|split; [|split; [|split]]].
  - intros Hneg. unfold run. rewrite Hread. cbn [fst]. f_equal.
    apply take_all. fold (content s).
    unfold content. rewrite len_drop, len_concat, <- table_bufs by lia.
    fold total. unfold n. replace (amount <? 0) with true by lia. cbn [orb]. lia.
  - exact (synced_pos Hs').
  - exact (synced_opened Hs').
  - apply (synced_mapped _ _ _ Hs'). lia.
  - exact (synced_bufs Hs').
Qed.

(** X12.  Under the same conditions and with the cursor not past the end,
    [read(amount)] returns the bytes of the stream from the cursor on:
    [amount] of them, or all that are left when [amount] is negative or
    more than is left (so [read()] returns the rest of the stream, and
    empty bytes at the end); the cursor has moved past them. *)
Theorem read_returns (s : stream) (amount : Z) :
  opened s ->
  mapped s ->
  _pos s <= total_length (table s) ->
  exists s',
    read amount s
    = (Ok (take (if (amount <? 0) || (total_length (table s) - _pos s <? amount)
                 then total_length (table s) - _pos s else amount)
                (drop (_pos s) (content s))), s')
    /\ (amount < 0 ->
        run (read amount) s = Ok (drop (_pos s) (content s)))
    /\ _pos s' = _pos s
                 + (if (amount <? 0) || (total_length (table s) - _pos s <? amount)
                    then total_length (table s) - _pos s else amount)
    /\ opened s' /\ mapped s'.
Proof.
  intros Ho Hm Hend.
  destruct (read_any s amount Ho Hm Hend) as (s' & H1 & H2 & H3 & H4 & H5 & _).
  exists s'. split; [exact H1|]. split; [exact H2|]. split; [exact H3|].
  split; assumption.
Qed.

(** X20.  Random access: on an open stream over files that keep the
    contract, for a position [p] within the stream, [seek(p)] followed by
    [read(amount)] returns the slice of the stream's bytes that starts at
    [p] and has [amount] bytes, or runs to the end when [amount] is
    negative or reaches past the end; and once [read()] has returned the
    rest of the stream, any further [read] returns empty bytes. *)
Theorem seek_read_slice (s : stream) (p amount : Z) :
  opened s ->
  0 <= p <= total_length (table s) ->
  run (seek p SEEK_SET ;; read amount) s
  = Ok (take (if (amount <? 0) || (total_length (table s) - p <? amount)
              then total_length (table s) - p else amount)
             (drop p (content s)))
  /\ run (seek p SEEK_SET ;; read (-1) ;; read amount) s = Ok [].
Proof.
  intros Ho [Hp Hend].
  destruct (seek_synced s p Ho Hp) as (s0 & Hk & Hs).
  pose proof (synced_opened Hs) as Ho0.
  pose proof (synced_mapped _ _ _ Hs Hp) as Hm0.
  pose proof (synced_pos Hs) as Hp0.
  pose proof (synced_bufs Hs) as Hb0.
  assert (Ht0 : table s0 = table s) by (now rewrite !table_bufs, Hb0).
  assert (Hc0 : content s0 = content s) by (unfold content; now rewrite Hb0).
  split.
  - destruct (read_any s0 amount Ho0 Hm0 ltac:(rewrite Ht0, Hp0; lia))
      as (s1 & Hr & _).
    unfold run. unfold bind at 1. rewrite Hk, Hr. cbn [fst].
    now rewrite Ht0, Hp0, Hc0.
  - destruct (read_any s0 (-1) Ho0 Hm0 ltac:(rewrite Ht0, Hp0; lia))
      as (s1 & Hr & _ & Hp1 & Ho1 & Hm1 & Hb1).
    cbn [Z.ltb Z.compare orb] in Hr, Hp1.
    assert (Ht1 : table s1 = table s) by (now rewrite !table_bufs, Hb1, Hb0).
    assert (He : _pos s1 = total_length (table s1)).
    { rewrite Hp1, Ht1, Ht0. lia. }
    destruct (read_any s1 amount Ho1 Hm1 ltac:(lia)) as (s2 & Hr2 & _).
    unfold run. unfold bind at 1. rewrite Hk. unfold bind at 1. rewrite Hr, Hr2.
    cbn [fst]. f_equal.
    rewrite <- He. rewrite Z.sub_diag.
    assert (Hd : drop (_pos s1) (content s1) = []).
    { apply drop_all. unfold content. rewrite len_concat, <- table_bufs. lia. }
    rewrite Hd. unfold take. apply firstn_nil.
Qed.

End ReadingAll.

Lemma readinto_fills_witness :
  let s := exec (seek 6 SEEK_SET) acsf in
  exists s',
    readinto (repeat x00 16) s
    = (Ok (Z.min (len (repeat x00 16)) (Z.max 0 (total_length (table s) - _pos s))),
       take (Z.min (len (repeat x00 16)) (Z.max 0 (total_length (table s) - _pos s)))
            (drop (_pos s) (content s))
       ++ drop (Z.min (len (repeat x00 16)) (Z.max 0 (total_length (table s) - _pos s)))
               (repeat x00 16), s')
    /\ _pos s' = _pos s
                 + Z.min (len (repeat x00 16)) (Z.max 0 (total_length (table s) - _pos s))
    /\ opened s' /\ mapped s'.
Proof.
  apply readinto_fills; [exact acsf_at_6_opened | exact acsf_at_6_mapped].
Defined.

Lemma read_returns_witness :
  let s := exec (seek 6 SEEK_SET) acsf in
  exists s',
    read (-1) s
    = (Ok (take (if (-1 <? 0) || (total_length (table s) - _pos s <? -1)
                 then total_length (table s) - _pos s else -1)
                (drop (_pos s) (content s))), s')
    /\ (-1 < 0 -> run (read (-1)) s = Ok (drop (_pos s) (content s)))
    /\ _pos s' = _pos s
                 + (if (-1 <? 0) || (total_length (table s) - _pos s <? -1)
                    then total_length (table s) - _pos s else -1)
    /\ opened s' /\ mapped s'.
Proof.
  apply read_returns;
    [exact acsf_at_6_opened | exact acsf_at_6_mapped | vm_compute; discriminate].
Defined.

(** ** Reading before any seek *)

Section Unsynced.

Unset Implicit Arguments.

Context {F : Type} `{Faithful F}.

Local Abbreviation stream := (AsyncConcatenatedSeekableFile F).

(** [read1] on an open stream that need not be in sync. *)
Lemma read1_opened (s : stream) (amount : Z) (f : F) :
  opened s ->
  0 <= _pos s ->
  nth_error (files s) (_file_index s) = Some f ->
  0 <= fcursor f ->
  exists val s',
    read1 amount s = (Ok val, s')
    /\ val = take (len val) (drop (fcursor f) (fdata f))
    /\ len val <= Z.max (len (fdata f) - _file_pos s) 0
    /\ _pos s' = _pos s + len val
    /\ opened s' /\ mapped s'
    /\ map fdata (files s') = map fdata (files s).
Proof.
  intros Ho Hp Ef Hoff.
  assert (Hi : (_file_index s < List.length (files s))%nat).
  { apply nth_error_Some. now rewrite Ef. }
  destruct (read_spec f amount (opened_nth s _ f Ho Ef) Hoff)
    as (size & f1 & Hread & Hd1 & Hc1 & Hfo1 & Hsize & Hamt & Hin).
  set (chunk := take size (drop (fcursor f) (fdata f))) in *.
  assert (Hlc : len chunk = size).
  { unfold chunk. rewrite len_take, len_drop by lia. lia. }
  set (max_len := Z.max (len (fdata f) - _file_pos s) 0).
  set (val := if max_len <? len chunk then take max_len chunk else chunk).
  assert (Hval : val = take (len val) (drop (fcursor f) (fdata f))
                 /\ len val <= max_len).
  { unfold val. destruct (max_len <? len chunk) eqn:Ec.
    - rewrite len_take by (unfold max_len; lia).
      replace (Z.min max_len (len chunk)) with max_len by lia.
      split; [|lia]. unfold chunk. apply take_take. lia.
    - split; [|lia]. rewrite Hlc. reflexivity. }
  destruct (opened_store s (_file_index s) f f1 Ho Ef Hd1 Hfo1) as [Ho1 Hm1].
  set (s3 := set_pos (_pos s + len val)
               (set_file_pos (fcursor f1)
                  (set_files (store (_file_index s) f1 (files s)) s))).
  assert (Ho3 : opened s3).
  { destruct Ho1 as [? ? ? ?]. constructor; assumption. }
  pose proof (len_nonneg val) as Hv0.
  destruct (recalc_synced s3 Ho3) as (s' & Hr & Hs'); [cbn; lia|].
  cbn [s3 set_pos set_file_pos set_files files _pos] in Hs'.
  rewrite Hm1 in Hs'.
  exists val, s'. split; [|split; [exact (proj1 Hval)|split; [exact (proj2 Hval)|]]].
  - unfold read1. unfold bind at 1, gets at 1. rewrite (opened_flag Ho).
    unfold bind at 1. rewrite (readable_opened s Ho). cbn [negb].
    unfold bind at 1, gets at 1. unfold bind at 1, gets at 1.
    unfold bind at 1. unfold call_file at 1. rewrite Ef, Hread.
    unfold bind at 1, _file_length, eval.
    cbn [set_files _file_index lengths].
    rewrite length_at_known with (ls := map len (map fdata (files s)));
      [| cbn [lengths set_files]; apply (opened_table s Ho)
       | rewrite !length_map; exact Hi ].
    rewrite nth_len.
    erewrite (nth_indep (map fdata (files s))) by (rewrite length_map; exact Hi).
    rewrite (map_nth fdata (files s) f), (nth_error_nth _ _ f Ef).
    fold chunk. cbn [_file_pos set_files]. fold max_len. fold val.
    unfold bind at 1, gets at 1. unfold bind at 1, call_file at 1.
    cbn [set_files files _file_index].
    rewrite store_nth_error by exact Hi.
    unfold query. rewrite (tell_spec f1 Hfo1).
    rewrite (store_same _ _ (store_nth_error _ _ Hi)).
    unfold bind at 1, modify at 1. unfold bind at 1, modify at 1.
    unfold bind at 1.
    cbn [set_files set_file_pos set_pos _pos files _file_index _file_pos
         lengths __inited _closed _name].
    match goal with |- context [_recalc_file ?x] => change x with s3 end.
    rewrite Hr. reflexivity.
  - split; [exact (synced_pos Hs')|]. split; [exact (synced_opened Hs')|].
    split; [apply (synced_mapped _ _ _ Hs'); lia | exact (synced_bufs Hs')].
Qed.

(** X13.  [read1] does not position the active file before it reads.  On an
    open stream whose cursor is not negative, whatever the cached offset
    says, it returns bytes of the active file from that file's own cursor
    on (cut to the declared length minus the cached offset); only then does
    it resync, so that the position mapping holds afterwards. *)
Theorem read1_unsynced (s : stream) (amount : Z) (f : F) :
  opened s ->
  0 <= _pos s ->
  nth_error (files s) (_file_index s) = Some f ->
  0 <= fcursor f ->
  exists val s',
    read1 amount s = (Ok val, s')
    /\ val = take (len val) (drop (fcursor f) (fdata f))
    /\ len val <= Z.max (len (fdata f) - _file_pos s) 0
    /\ _pos s' = _pos s + len val
    /\ opened s' /\ mapped s'
    /\ map fdata (files s') = map fdata (files s).
Proof. exact (read1_opened s amount f). Qed.

(** X14.  While the active file is one that holds no bytes (as on a stream
    just created over files the first of which is empty: [create] does not
    resync), [read1] returns empty bytes although the stream is not at its
    end; [readinto] takes that for the end and returns [0] with the buffer
    untouched; and [read(n)], for [n] within what is left, returns [n] zero
    bytes. *)
Theorem read_empty_active (s : stream) (f : F) :
  opened s ->
  0 <= _pos s ->
  nth_error (files s) (_file_index s) = Some f ->
  0 <= fcursor f ->
  fdata f = [] ->
  (forall amount, run (read1 amount) s = Ok [])
  /\ (forall buffer, fst (readinto buffer s) = (Ok 0, buffer))
  /\ (forall n, 0 <= n <= total_length (table s) - _pos s ->
                run (read n) s = Ok (repeat x00 (Z.to_nat n))).
Proof.
  intros Ho Hp Ef Hoff Hempty.
  assert (H1 : forall amount, exists s', read1 amount s = (Ok [], s')).
  { intros amount.
    destruct (read1_opened s amount f Ho Hp Ef Hoff)
      as (val & s' & Hr & Hv & _).
    rewrite Hempty in Hv. unfold take, drop in Hv.
    rewrite skipn_nil, firstn_nil in Hv. subst val. now exists s'. }
  assert (H2 : forall buffer, fst (readinto buffer s) = (Ok 0, buffer)).
  { intros buffer. unfold readinto. rewrite readinto_loop_step.
    destruct (0 <? len buffer) eqn:E; [|reflexivity].
    destruct (H1 (len buffer - 0)) as (s' & ->). reflexivity. }
  split; [|split].
  - intros amount. destruct (H1 amount) as (s' & Hr). unfold run. now rewrite Hr.
  - exact H2.
  - intros n Hn.
    assert (Hl : __len__ s = (Ok (total_length (table s)), s)).
    { apply len_known. rewrite table_bufs. apply opened_table, Ho. }
    unfold run, read. unfold bind at 1.
    replace (n <? 0) with false by lia.
    unfold bind at 1. rewrite Hl. unfold bind at 1, gets at 1. unfold ret at 1.
    replace (total_length (table s) - _pos s <? n) with false by lia.
    unfold bind at 1, ret at 1. unfold bind at 1, eval, bytearray.
    replace (n <? 0) with false by lia.
    specialize (H2 (repeat x00 (Z.to_nat n))).
    destruct (readinto (repeat x00 (Z.to_nat n)) s) as [[r b] s'].
    cbn [fst] in H2. inversion H2. reflexivity.
Qed.

End Unsynced.

(** A stream just created over an empty file and the test-suite's last. *)
Lemma acsf_empty_first_opened :
  opened (snd (create [BytesIO_of []; BytesIO_of b_kek] EmptyString)).
Proof.
  constructor; [reflexivity | discriminate | repeat constructor | reflexivity].
Defined.

Lemma read1_unsynced_witness :
  let s := snd (create [mkBytesIO b_test 3 false; BytesIO_of b_kek] EmptyString) in
  exists val s',
    read1 (-1) s = (Ok val, s')
    /\ val = take (len val) (drop 3 b_test)
    /\ len val <= Z.max (len b_test - _file_pos s) 0
    /\ _pos s' = _pos s + len val
    /\ opened s' /\ mapped s'
    /\ map fdata (files s') = map fdata (files s).
Proof.
  intros s.
  refine (read1_unsynced s (-1) (mkBytesIO b_test 3 false) _ _ _ _).
  - constructor; [reflexivity | discriminate | repeat constructor | reflexivity].
  - vm_compute. discriminate.
  - reflexivity.
  - vm_compute. discriminate.
Defined.

Lemma read_empty_active_witness :
  let s := snd (create [BytesIO_of []; BytesIO_of b_kek] EmptyString) in
  (forall amount, run (read1 amount) s = Ok [])
  /\ (forall buffer, fst (readinto buffer s) = (Ok 0, buffer))
  /\ (forall n, 0 <= n <= total_length (table s) - _pos s ->
                run (read n) s = Ok (repeat x00 (Z.to_nat n))).
Proof.
  intros s.
  refine (read_empty_active s (BytesIO_of []) _ _ _ _ _).
  - exact acsf_empty_first_opened.
  - vm_compute. discriminate.
  - reflexivity.
  - vm_compute. discriminate.
  - reflexivity.
Defined.

(** ** Streams over [io.BytesIO] files *)

Section OverBytesIO.

Unset Implicit Arguments.

Local Abbreviation stream := (AsyncConcatenatedSeekableFile BytesIO).

Lemma locate_negative (ls : list Z) (pos : Z) :
  Forall (fun l => 0 <= l) ls -> pos < 0 -> locate ls 0 pos = (0%nat, pos).
Proof.
  intros Hls Hp. destruct ls as [|l [|l' ls']]; try reflexivity.
  rewrite locate_cons. inversion Hls; subst.
  now replace (l <=? pos) with false by lia.
Qed.

(** Resync with a negative cursor: the first file refuses the seek. *)
Lemma recalc_negative (s : stream) :
  opened s ->
  _pos s < 0 ->
  _recalc_file s
  = (Raise (ValueError "negative seek value"),
     set_file_pos 0 (set_file_index 0 s)).
Proof.
  intros Ho Hp.
  assert (Hlen : List.length (files s) = List.length (table s))
    by (symmetry; apply table_length).
  assert (Hpos : (0 < List.length (files s))%nat).
  { pose proof (opened_some Ho) as Hne.
    destruct (files s); [congruence | simpl; lia]. }
  destruct (nth_error (files s) 0) as [f|] eqn:Ef;
    [|apply nth_error_None in Ef; lia].
  pose proof (opened_nth s 0 f Ho Ef) as Hfc. cbn in Hfc.
  unfold _recalc_file, bind, gets, modify; cbn [fst snd].
  rewrite (find_file_locate (set_file_pos 0 (set_file_index 0 s)) (table s));
    cbn [set_file_pos set_file_index lengths files _file_index];
    [| rewrite table_bufs; apply (opened_table s Ho)
     | exact Hlen
     | rewrite <- Hlen; exact Hpos ].
  cbn [skipn]. rewrite (locate_negative _ _ (table_nonneg s) Hp). cbn [fst snd].
  unfold call_file. cbn [files _file_index set_file_index set_file_pos].
  rewrite Ef. cbn [fseek BytesIO_IOBase]. unfold bio_seek.
  rewrite Hfc. replace (_pos s <? 0) with true by lia.
  rewrite (store_same _ _ Ef). destruct s; reflexivity.
Qed.

(** X15.  Over [io.BytesIO] files, a [seek] whose target (from any of the
    three origins) is negative raises the [ValueError] of the first file's
    own [seek]; the logical cursor is not put back: a [tell] right after
    returns the negative target. *)
Theorem seek_before_start (s : stream) (offset whence : Z) :
  opened s ->
  whence = SEEK_SET \/ whence = SEEK_CUR \/ whence = SEEK_END ->
  origin whence s + offset < 0 ->
  exists s',
    seek offset whence s = (Raise (ValueError "negative seek value"), s')
    /\ tell s' = (Ok (origin whence s + offset), s')
    /\ files s' = files s.
Proof.
  intros Ho Hw Hp.
  assert (Hl : __len__ s = (Ok (total_length (table s)), s)).
  { apply len_known. rewrite table_bufs. apply opened_table, Ho. }
  pose proof (recalc_negative (set_pos (origin whence s + offset) s)) as Hr.
  cbn [set_pos _pos] in Hr. specialize (Hr ltac:(destruct Ho; constructor; assumption) Hp).
  exists (set_file_pos 0 (set_file_index 0 (set_pos (origin whence s + offset) s))).
  split; [|split; reflexivity].
  unfold seek. unfold bind at 1, gets at 1. rewrite (opened_flag Ho).
  unfold bind at 1. rewrite (seekable_opened s Ho). cbn [negb].
  unfold origin in *.
  destruct Hw as [-> | [-> | ->]]; cbn [Z.eqb SEEK_SET SEEK_CUR SEEK_END Pos.eqb] in *.
  - unfold bind at 1, modify at 1. unfold bind at 1, modify at 1.
    unfold bind at 1. cbn [set_pos _pos].
    replace (set_pos (0 + offset) (set_pos 0 s)) with (set_pos (0 + offset) s)
      by (now destruct s).
    now rewrite Hr.
  - unfold bind at 1, ret at 1. unfold bind at 1, modify at 1.
    unfold bind at 1. now rewrite Hr.
  - unfold bind at 1. unfold bind at 1. rewrite Hl.
    unfold modify at 1. unfold bind at 1, modify at 1.
    unfold bind at 1. cbn [set_pos _pos].
    replace (set_pos (total_length (table s) + offset)
               (set_pos (total_length (table s)) s))
      with (set_pos (total_length (table s) + offset) s) by (now destruct s).
    now rewrite Hr.
Qed.

(** X16.  [create] over at least one [io.BytesIO], all of them open,
    returns an open stream over the same files with cursor [0], whose
    length table holds the length of each buffer: the total length is the
    number of bytes the buffers hold together. *)
Theorem create_over_BytesIO (fs : list BytesIO) (name : string) :
  fs <> [] ->
  Forall (fun f => bio_closed f = false) fs ->
  exists s,
    create fs name = (Ok tt, s)
    /\ opened s /\ files s = fs /\ _pos s = 0
    /\ run __len__ s = Ok (len (List.concat (map getbuffer fs))).
Proof.
  intros Hne Ho.
  assert (Hg : fst (gather (query flen) fs)
               = Ok (map (fun f => Some (len (getbuffer f))) fs)).
  { apply gather_all_Ok. unfold query. cbn [fst].
    clear Hne. induction Ho as [|f fs Hf _ IH]; constructor; [|exact IH].
    cbn. unfold bio_guard. now rewrite Hf. }
  assert (Hu : has_unknown (map (fun f => Some (len (getbuffer f))) fs) = false).
  { clear. induction fs; simpl; auto. }
  exists (mkACSF true 0 0 0 false name fs
            (Some (map (fun f => Some (len (getbuffer f))) fs))).
  split; [|split; [|split; [|split]]]; try reflexivity.
  - unfold create, __aenter__, __init__. unfold bind at 1, gets at 1.
    cbn [__inited]. unfold bind at 1. rewrite call_all_query.
    cbn [files]. rewrite Hg.
    unfold bind, modify, ret, raise. cbn [set_lengths lengths].
    rewrite Hu. reflexivity.
  - constructor; [reflexivity | exact Hne | exact Ho | reflexivity].
  - unfold run. rewrite (len_known _ (map len (map getbuffer fs))).
    + cbn [fst]. now rewrite len_concat.
    + cbn [lengths]. now rewrite !map_map.
Qed.

End OverBytesIO.

Lemma seek_before_start_witness :
  exists s',
    seek (-15) SEEK_END acsf = (Raise (ValueError "negative seek value"), s')
    /\ tell s' = (Ok (origin SEEK_END acsf + -15), s')
    /\ files s' = files acsf.
Proof.
  apply seek_before_start.
  - exact acsf_opened.
  - right. right. reflexivity.
  - vm_compute. reflexivity.
Defined.

Lemma create_over_BytesIO_witness :
  exists s,
    create in_f EmptyString = (Ok tt, s)
    /\ opened s /\ files s = in_f /\ _pos s = 0
    /\ run __len__ s = Ok (len (List.concat (map getbuffer in_f))).
Proof.
  apply create_over_BytesIO; [discriminate | repeat constructor].
Defined.

(** ** The length probe *)

Section Probing.

Unset Implicit Arguments.

Variable st_size : Z -> result Z.

Lemma bio_seek_whence_set (f : BytesIO) (pos : Z) :
  bio_seek_whence f pos SEEK_SET = bio_seek f pos.
Proof.
  unfold bio_seek_whence, bio_seek. destruct (bio_closed f); [reflexivity|].
  cbn [SEEK_SET Z.eqb negb]. rewrite andb_true_r.
  destruct (pos <? 0) eqn:E; reflexivity.
Qed.

(** X17.  For an [io.BytesIO], [_flen] answers through [getbuffer]: the
    length of the buffer when the file is open, the closed-file
    [ValueError] when it is closed; it does not move the file's cursor and
    does not depend on [os.fstat].  This is the length the stream
    records. *)
Theorem flen_BytesIO (f : BytesIO) :
  _flen st_size BytesIO_attrs f = (flen f, f)
  /\ (bio_closed f = false ->
      fst (_flen st_size BytesIO_attrs f) = Ok (Some (len (getbuffer f))))
  /\ (bio_closed f = true ->
      fst (_flen st_size BytesIO_attrs f) = Raise (ValueError closed_msg)).
Proof.
  unfold _flen, BytesIO_attrs, returning. cbn. unfold bio_guard.
  destruct (bio_closed f); repeat split; intros; congruence.
Qed.

(** X18.  For a file on which [_flen] finds nothing but [seek] and [tell],
    and whose [seek] and [tell] are those of an open [io.BytesIO], the
    probe (tell, seek to the end, seek back) answers the number of bytes
    the file holds and leaves the file exactly as it was, cursor
    included. *)
Theorem flen_seek_round_trip (a : attrs) (f : BytesIO) :
  attr___len__ a = None ->
  attr_len a = None ->
  attr_getbuffer a = None ->
  attr_fileno a = None ->
  attr_seek a = Some bio_seek_whence ->
  attr_tell a = Some (fun f => (bio_guard f (Ok (bio_pos f)), f)) ->
  bio_closed f = false ->
  0 <= bio_pos f ->
  _flen st_size a f = (Ok (Some (len (getbuffer f))), f).
Proof.
  intros H1 H2 H3 H4 H5 H6 Hc Hp. unfold _flen.
  rewrite H1, H2, H3, H4, H5, H6.
  pose proof (len_nonneg (getbuffer f)) as Hl.
  assert (Hend : bio_seek_whence f 0 SEEK_END
                 = (Ok (len (getbuffer f)),
                    mkBytesIO (getbuffer f) (len (getbuffer f)) false)).
  { unfold bio_seek_whence. rewrite Hc.
    cbn [SEEK_END Z.eqb Pos.eqb andb negb Z.ltb Z.compare Z.add].
    now replace (len (getbuffer f) <? 0) with false by lia. }
  assert (Hback : bio_seek_whence
                    (mkBytesIO (getbuffer f) (len (getbuffer f)) false)
                    (bio_pos f) SEEK_SET
                  = (Ok (bio_pos f), f)).
  { rewrite bio_seek_whence_set. unfold bio_seek.
    cbn [bio_closed getbuffer]. replace (bio_pos f <? 0) with false by lia.
    f_equal. destruct f; cbn in *; subst; reflexivity. }
  unfold bio_guard. rewrite Hc. cbn [or_pass].
  rewrite Hend. cbn [or_pass]. rewrite Hback. reflexivity.
Qed.

(** X19.  For a file without [__len__], [len] and [getbuffer] but with
    [fileno], [_flen] settles the answer in that branch alone and never
    falls back on [seek] and [tell], present or not: it answers [None]
    when [fileno] raises an [OSError], and [None] without asking
    [os.fstat] when the file has a [mode] with no ['b'] in it. *)
Theorem flen_fileno_branch {F : Type} (a : attrs (F := F)) (f f' : F)
  (fileno_ : F -> result Z * F) :
  attr___len__ a = None ->
  attr_len a = None ->
  attr_getbuffer a = None ->
  attr_fileno a = Some fileno_ ->
  (forall e, fileno_ f = (Raise e, f') -> is_OSError e = true ->
             _flen st_size a f = (Ok None, f'))
  /\ (forall n mode, fileno_ f = (Ok n, f') -> attr_mode a = Some mode ->
                     has_b (mode f') = false ->
                     _flen st_size a f = (Ok None, f'))
  /\ (forall e, fileno_ f = (Raise e, f') -> is_OSError e = false ->
                _flen st_size a f = (Raise e, f')).
Proof.
  intros H1 H2 H3 H4. unfold _flen. rewrite H1, H2, H3, H4.
  unfold or_pass. repeat split.
  - intros e -> ->. reflexivity.
  - intros n mode -> -> ->. reflexivity.
  - intros e -> ->. reflexivity.
Qed.

End Probing.

Lemma flen_seek_round_trip_witness :
  _flen (fun _ => Ok 0)
        (mkAttrs None None None None None (Some bio_seek_whence)
           (Some (fun f => (bio_guard f (Ok (bio_pos f)), f))))
        (mkBytesIO b_kurwa 2 false)
  = (Ok (Some (len (getbuffer (mkBytesIO b_kurwa 2 false)))),
     mkBytesIO b_kurwa 2 false).
Proof.
  apply flen_seek_round_trip; try reflexivity. vm_compute. discriminate.
Defined.

Lemma flen_fileno_branch_witness :
  let a := mkAttrs None None None
             (Some (fun f : BytesIO => (Raise UnsupportedOperation, f)))
             None (Some bio_seek_whence)
             (Some (fun f => (bio_guard f (Ok (bio_pos f)), f))) in
  _flen (fun _ => Ok 0) a (BytesIO_of b_test) = (Ok None, BytesIO_of b_test).
Proof.
  intros a.
  refine (proj1 (flen_fileno_branch (fun _ => Ok 0) a (BytesIO_of b_test)
                   (BytesIO_of b_test) _ eq_refl eq_refl eq_refl eq_refl)
            UnsupportedOperation eq_refl eq_refl).
Defined.

Lemma seek_read_slice_witness :
  run (seek 11 SEEK_SET ;; read 5) acsf
  = Ok (take (if (5 <? 0) || (total_length (table acsf) - 11 <? 5)
              then total_length (table acsf) - 11 else 5)
             (drop 11 (content acsf)))
  /\ run (seek 11 SEEK_SET ;; read (-1) ;; read 5) acsf = Ok [].
Proof.
  apply seek_read_slice; [exact acsf_opened | vm_compute; split; discriminate].
Defined.
